(** * Route-coverage scoring: the CoverageCalculator service

    A shallow embedding of [CoverageCalculator] (services/CoverageCalculator.ts)
    together with the ECMAScript built-ins it relies on, and the properties of
    the route-coverage specification checked against it.

    Conventions of the embedding.
    - A JavaScript number is read as the real number it denotes: arithmetic is
      exact (no rounding), and [NaN] is explicit wherever the code can produce
      it.  Coordinates are finite numbers, as the specification requires.
      Counters that only ever hold natural numbers are [nat].
    - A plain object is the list of its own properties in creation order;
      property reads fall back to [Object.prototype].
    - A filter object is the record of its four lists, [FilterState], where
      only the lists matter; [FilterObject] adds the order in which its
      properties were created, which [JSON.stringify] follows.  A bare
      [FilterState] stands for an object built in the order of the interface.
    - A [Map] is a finite map; a [Set] is the list of its distinct members in
      insertion order.
    - A coverage point object is identified by its position in the array
      handed to the constructor (the loader creates one object per feature).
    - [Number::toString] is a parameter of the development. *)

From stdpp Require Import gmap strings list.
From Stdlib Require Import Reals Lra Lia ZArith.
From Stdlib Require Import Ascii DecimalString DecimalZ.

(* ===================================================================== *)
(** * ECMAScript built-ins *)
(* ===================================================================== *)

Module JS.

(** Numbers: a value of [A], or NaN. *)
Inductive number (A : Type) : Type :=
| Num (a : A)
| NaN.
Arguments Num {A} a.
Arguments NaN {A}.

Definition lift1 {A} (f : A → A) (x : number A) : number A :=
  match x with
  | Num a => Num (f a)
  | NaN => NaN
  end.

Definition lift2 {A} (f : A → A → A) (x y : number A) : number A :=
  match x, y with
  | Num a, Num b => Num (f a b)
  | _, _ => NaN
  end.

(** [x > 0] on a counter; every comparison with NaN is false. *)
Definition gt0 (x : number nat) : bool :=
  match x with
  | Num n => negb (Nat.eqb n 0)
  | NaN => false
  end.

(** [a <= b] on real numbers, as a boolean. *)
Definition Rleb (a b : R) : bool :=
  if Rle_dec a b then true else false.

(** [Math.floor]. *)
Definition Math_floor (x : R) : R := IZR (Int_part x).

(** [Math.atan2(y, x)] on finite arguments. *)
Definition Math_atan2 (y x : R) : R :=
  match total_order_T 0 x with
  | inleft (left _) => atan (y / x)
  | inleft (right _) =>
      match total_order_T 0 y with
      | inleft (left _) => PI / 2
      | inleft (right _) => 0
      | inright _ => - (PI / 2)
      end
  | inright _ =>
      if Rle_dec 0 y then atan (y / x) + PI else atan (y / x) - PI
  end%R.

(** ** Plain objects *)

Abbreviation object A := (list (string * A)).

(** The members of [Object.prototype], which every object literal inherits. *)
Definition Object_prototype_keys : list string :=
  [ "constructor"; "__defineGetter__"; "__defineSetter__"; "hasOwnProperty";
    "__lookupGetter__"; "__lookupSetter__"; "isPrototypeOf";
    "propertyIsEnumerable"; "toString"; "valueOf"; "__proto__";
    "toLocaleString" ].

Fixpoint getOwn {A} (o : object A) (k : string) : option A :=
  match o with
  | [] => None
  | (k', v) :: o' => if String.eqb k k' then Some v else getOwn o' k
  end.

Fixpoint setOwn {A} (o : object A) (k : string) (v : A) : object A :=
  match o with
  | [] => []
  | (k', v') :: o' =>
      if String.eqb k k' then (k', v) :: o' else (k', v') :: setOwn o' k v
  end.

(** The outcome of reading [o[k]]: an own property, a member inherited from
    [Object.prototype] (a function or an object, never a number), or
    [undefined]. *)
Inductive property (A : Type) : Type :=
| Own (v : A)
| Inherited
| Undefined.
Arguments Own {A} v.
Arguments Inherited {A}.
Arguments Undefined {A}.

Definition get {A} (o : object A) (k : string) : property A :=
  match getOwn o k with
  | Some v => Own v
  | None =>
      if existsb (String.eqb k) Object_prototype_keys then Inherited
      else Undefined
  end.

(** [o[k] = v].  An own property is updated in place.  Otherwise a new own
    property is appended, except for ["__proto__"]: that one is an accessor of
    [Object.prototype] whose setter ignores a number. *)
Definition put {A} (o : object A) (k : string) (v : A) : object A :=
  match getOwn o k with
  | Some _ => setOwn o k v
  | None => if String.eqb k "__proto__" then o else o ++ [(k, v)]
  end.

(** [o[k]++] on an object of counters.  Whatever is not a number reads as NaN
    ([undefined], a function, an object), and NaN + 1 is NaN. *)
Definition increment (o : object (number nat)) (k : string) : object (number nat) :=
  let old := match get o k with
             | Own v => v
             | Inherited => NaN
             | Undefined => NaN
             end in
  put o k (lift1 S old).

Definition Object_values {A} (o : object A) : list A := map snd o.
Definition Object_keys {A} (o : object A) : list string := map fst o.

(** ** Strings *)

(** [Array.prototype.join]. *)
Fixpoint join (sep : string) (l : list string) : string :=
  match l with
  | [] => ""
  | [x] => x
  | x :: rest => x +:+ sep +:+ join sep rest
  end.

(** [Array.prototype.includes] on strings. *)
Definition includes (l : list string) (x : string) : bool :=
  existsb (String.eqb x) l.

(** ** JSON.stringify *)

Definition dquote : ascii := "034"%char.
Definition backslash : ascii := "\"%char.

Definition hex_digit (n : N) : ascii :=
  match n with
  | 0 => "0" | 1 => "1" | 2 => "2" | 3 => "3" | 4 => "4" | 5 => "5"
  | 6 => "6" | 7 => "7" | 8 => "8" | 9 => "9" | 10 => "a" | 11 => "b"
  | 12 => "c" | 13 => "d" | 14 => "e" | _ => "f"
  end%N%char.

(** QuoteJSONString on one code unit. *)
Definition escape_char (c : ascii) : list ascii :=
  let n := N_of_ascii c in
  if Ascii.eqb c dquote then [backslash; dquote]
  else if Ascii.eqb c backslash then [backslash; backslash]
  else if N.eqb n 8 then [backslash; "b"%char]
  else if N.eqb n 9 then [backslash; "t"%char]
  else if N.eqb n 10 then [backslash; "n"%char]
  else if N.eqb n 12 then [backslash; "f"%char]
  else if N.eqb n 13 then [backslash; "r"%char]
  else if N.ltb n 32 then
    [backslash; "u"%char; "0"%char; "0"%char;
     hex_digit (N.div n 16); hex_digit (N.modulo n 16)]
  else [c].

(** The code units [cs] followed by [s]. *)
Definition prepend (cs : list ascii) (s : string) : string :=
  fold_right String s cs.

Fixpoint escape (s : string) : string :=
  match s with
  | EmptyString => EmptyString
  | String c s' => prepend (escape_char c) (escape s')
  end.

Definition quote (s : string) : string :=
  String dquote (escape s +:+ String dquote EmptyString).

(** A JSON array of strings: [[]], [["a"]], [["a","b"]]. *)
Definition stringify_array (l : list string) : string :=
  "[" +:+ join "," (map quote l) +:+ "]".

End JS.

Import JS.

(* ===================================================================== *)
(** * Data model (types/coverage.ts) *)
(* ===================================================================== *)

(** [CoveragePoint.properties]; [country] and [phone_type] are optional. *)
Record Properties : Type := {
  operator : string;
  city_name : string;
  status : string;
  country : option string;
  phone_type : option string;
}.

(** A GeoJSON feature.  [coordinates] is the pair [[lng, lat]]; the loader may
    deliver the two entries as numeric strings, and every use in the
    calculator converts them to numbers, so they are numbers here. *)
Record CoveragePoint : Type := {
  properties : Properties;
  coordinates : R * R;
}.

(** A [google.maps.LatLng] object: its identity and what [lat()] and [lng()]
    return. *)
Record LatLng : Type := {
  ref : nat;
  lat : R;
  lng : R;
}.

Record RouteSegment : Type := {
  path : list LatLng;
  coverage : number R;
  coverageDetails : object (number nat);
}.

Record FilterState : Type := {
  countries : list string;
  phoneTypes : list string;
  operators : list string;
  statuses : list string;
}.

Record DistributionEntry : Type := {
  entryCoverage : number R;
  color : string;
  nearbyPoints : number nat;
}.

Record CoverageStats : Type := {
  totalSegments : nat;
  averageCoverage : number R;
  coverageDistribution : list DistributionEntry;
}.

(** A reference to a coverage point: the identity of the object (its position
    in the constructor's array) and the object itself. *)
Abbreviation pointRef := (nat * CoveragePoint)%type.

(** The state of a [CoverageCalculator] instance. *)
Record CoverageCalculator : Type := {
  points : list CoveragePoint;
  spatialIndex : gmap string (list pointRef);
  cache : gmap string RouteSegment;
}.

(* ===================================================================== *)
(** * The calculator (services/CoverageCalculator.ts) *)
(* ===================================================================== *)

Definition COVERAGE_WEIGHTS : object R :=
  [ ("5G", 1); ("4G", 0.7); ("3G", 0.4); ("other", 0.1) ]%R.

Definition DEFAULT_SEARCH_RADIUS : R := 0.01.
Definition SEGMENT_LENGTH : nat := 5.
Definition gridSize : R := 0.1.

(** [JSON.stringify(filters)] for a filter object whose properties were
    created in the order of the [FilterState] interface, as the route
    component creates it ([JSON_stringify_object] is the general case). *)
Definition JSON_stringify (f : FilterState) : string :=
  "{" +:+ quote "countries" +:+ ":" +:+ stringify_array (countries f) +:+
  "," +:+ quote "phoneTypes" +:+ ":" +:+ stringify_array (phoneTypes f) +:+
  "," +:+ quote "operators" +:+ ":" +:+ stringify_array (operators f) +:+
  "," +:+ quote "statuses" +:+ ":" +:+ stringify_array (statuses f) +:+ "}".

(** The four properties of a filter object. *)
Inductive FilterKey : Type := Countries | PhoneTypes | Operators | Statuses.

Definition keyName (k : FilterKey) : string :=
  match k with
  | Countries => "countries"
  | PhoneTypes => "phoneTypes"
  | Operators => "operators"
  | Statuses => "statuses"
  end.

Definition member (f : FilterState) (k : FilterKey) : list string :=
  match k with
  | Countries => countries f
  | PhoneTypes => phoneTypes f
  | Operators => operators f
  | Statuses => statuses f
  end.

(** A filter object as a caller built it: the four lists, and the order in
    which its four properties were created. *)
Record FilterObject : Type := {
  created : list FilterKey;
  lists : FilterState;
}.

(** The order of the [FilterState] interface. *)
Definition interfaceOrder : list FilterKey :=
  [Countries; PhoneTypes; Operators; Statuses].

(** [JSON.stringify(filters)]: the own properties in creation order. *)
Definition JSON_stringify_object (o : FilterObject) : string :=
  "{" +:+
  join "," (map (fun k => quote (keyName k) +:+ ":" +:+
                          stringify_array (member (lists o) k))
                (created o)) +:+
  "}".

Definition toRad (degrees : R) : R := (degrees * (PI / 180))%R.

(** [Math.sqrt] is [sqrt]: its arguments here are never negative
    ([haversineDistance_sqrt_arguments]). *)
Definition haversineDistance (lat1 lon1 lat2 lon2 : R) : R :=
  let R_ := 6371%R in
  let dLat := toRad (lat2 - lat1) in
  let dLon := toRad (lon2 - lon1) in
  let a := (sin (dLat / 2) * sin (dLat / 2) +
            cos (toRad lat1) * cos (toRad lat2) *
            sin (dLon / 2) * sin (dLon / 2))%R in
  let c := (2 * Math_atan2 (sqrt a) (sqrt (1 - a)))%R in
  (R_ * c)%R.

(** [COVERAGE_WEIGHTS[status] || COVERAGE_WEIGHTS.other].  A status that names
    a member of [Object.prototype] yields that member (truthy, not a number);
    adding it turns the running score into a string that is no numeral, which
    the final division reads as NaN: it is NaN here from the start. *)
Definition weightOf (status : string) : number R :=
  let other := match getOwn COVERAGE_WEIGHTS "other" with
               | Some w => w
               | None => 0%R
               end in
  match get COVERAGE_WEIGHTS status with
  | Own w => if Req_EM_T w 0 then Num other else Num w
  | Inherited => NaN
  | Undefined => Num other
  end.

(** [x / n] for a counter [n].  Where the code divides by zero the dividend is
    the empty sum 0, and 0 / 0 is NaN. *)
Definition divide (x : number R) (n : nat) : number R :=
  match n with
  | O => NaN
  | S _ => lift1 (fun v => (v / INR n)%R) x
  end.

(** [Set.prototype.add] on point references, compared by identity. *)
Definition Set_add (s : list pointRef) (p : pointRef) : list pointRef :=
  if existsb (fun q => Nat.eqb (fst q) (fst p)) s then s else s ++ [p].

(** [Array.prototype.slice(i, j)] for [0 <= i <= j]. *)
Definition slice {A} (l : list A) (i j : nat) : list A :=
  firstn (j - i) (skipn i l).

(** The guard of one filter dimension on an optional attribute: the point is
    dropped when the list is not empty, the attribute is truthy (present and
    not the empty string) and not in the list. *)
Definition rejectsOptional (allowed : list string) (attr : option string) : bool :=
  Nat.ltb 0 (length allowed) &&
  match attr with
  | Some s => negb (String.eqb s "") && negb (includes allowed s)
  | None => false
  end.

(** The guard of one filter dimension on a mandatory attribute. *)
Definition rejectsRequired (allowed : list string) (attr : string) : bool :=
  Nat.ltb 0 (length allowed) && negb (includes allowed attr).

(** "Apply filters": the four guards with their early returns. *)
Definition passesFilters (filters : FilterState) (point : CoveragePoint) : bool :=
  let props := properties point in
  if rejectsOptional (countries filters) (country props) then false
  else if rejectsOptional (phoneTypes filters) (phone_type props) then false
  else if rejectsRequired (operators filters) (operator props) then false
  else if rejectsRequired (statuses filters) (status props) then false
  else true.

(** [isNearby]: within [searchRadius] of some point of the segment. *)
Definition isNearby (segment : list LatLng) (searchRadius : R)
    (point : CoveragePoint) : bool :=
  let '(lng_, lat_) := coordinates point in
  existsb (fun p => Rleb (haversineDistance lat_ lng_ (lat p) (lng p)) searchRadius)
          segment.

(** The three locals the scoring loop updates. *)
Record Tally : Type := {
  details : object (number nat);
  totalPoints : nat;
  coverageScore : number R;
}.

Definition initialTally : Tally :=
  {| details := [ ("5G", Num 0); ("4G", Num 0); ("3G", Num 0); ("other", Num 0) ];
     totalPoints := 0;
     coverageScore := Num 0%R |}.

(** The body of the scoring loop for one candidate. *)
Definition processPoint (segment : list LatLng) (filters : FilterState)
    (searchRadius : R) (t : Tally) (pr : pointRef) : Tally :=
  let point := snd pr in
  if negb (passesFilters filters point) then t
  else if isNearby segment searchRadius point then
    {| details := increment (details t) (status (properties point));
       totalPoints := S (totalPoints t);
       coverageScore := lift2 Rplus (coverageScore t)
                                    (weightOf (status (properties point))) |}
  else t.

Section Calculator.

(** [Number::toString], applied by every template literal. *)
Variable Number_toString : R → string.

(** The template literal [`${a},${b}`]. *)
Definition pairKey (a b : R) : string :=
  Number_toString a +:+ "," +:+ Number_toString b.

Definition getGridKey (lat_ lng_ : R) : string :=
  let latKey := (Math_floor (lat_ / gridSize) * gridSize)%R in
  let lngKey := (Math_floor (lng_ / gridSize) * gridSize)%R in
  pairKey latKey lngKey.

(** The keys of the 3x3 block of cells, [i] outer and [j] inner, each from -1
    to 1.  The [radius] argument is not used, as in the source. *)
Definition getNearbyGridKeys (lat_ lng_ radius : R) : list string :=
  let latKey := (Math_floor (lat_ / gridSize) * gridSize)%R in
  let lngKey := (Math_floor (lng_ / gridSize) * gridSize)%R in
  flat_map (fun i =>
    map (fun j => pairKey (latKey + i * gridSize) (lngKey + j * gridSize))%R
        [(-1)%R; 0%R; 1%R])
    [(-1)%R; 0%R; 1%R].

(** One step of [buildSpatialIndex]: create the bucket if the cell has none,
    then push the point onto it. *)
Definition indexPoint (index : gmap string (list pointRef)) (pr : pointRef)
    : gmap string (list pointRef) :=
  let '(lng_, lat_) := coordinates (snd pr) in
  let gridKey := getGridKey lat_ lng_ in
  let index' := match index !! gridKey with
                | Some _ => index
                | None => <[gridKey := []]> index
                end in
  <[gridKey := default [] (index' !! gridKey) ++ [pr]]> index'.

(** [points.forEach] with the identity of each point object. *)
Definition buildSpatialIndex (pts : list CoveragePoint)
    : gmap string (list pointRef) :=
  fold_left indexPoint (imap (fun i p => (i, p)) pts) ∅.

(** The constructor. *)
Definition newCoverageCalculator (pts : list CoveragePoint) : CoverageCalculator :=
  {| points := pts;
     spatialIndex := buildSpatialIndex pts;
     cache := ∅ |}.

Definition getCacheKey (segment : list LatLng) (filters : FilterState) : string :=
  let segmentKey := join "|" (map (fun p => pairKey (lat p) (lng p)) segment) in
  let filterKey := JSON_stringify filters in
  segmentKey +:+ "|" +:+ filterKey.

(** "Get all points in nearby grid cells": the set [nearbyPoints] after the
    loop over the segment, as [Array.from] lists it. *)
Definition collectNearbyPoints (calc : CoverageCalculator)
    (segment : list LatLng) (searchRadius : R) : list pointRef :=
  fold_left (fun nearby point =>
    fold_left (fun nearby key =>
      let pointsInCell := default [] (spatialIndex calc !! key) in
      fold_left Set_add pointsInCell nearby)
      (getNearbyGridKeys (lat point) (lng point) searchRadius) nearby)
    segment [].

(** "Filter and process points": the locals after the scoring loop. *)
Definition tally (calc : CoverageCalculator) (segment : list LatLng)
    (filters : FilterState) (searchRadius : R) : Tally :=
  fold_left (processPoint segment filters searchRadius)
            (collectNearbyPoints calc segment searchRadius) initialTally.

(** The result object built on a cache miss. *)
Definition computeSegment (calc : CoverageCalculator) (segment : list LatLng)
    (filters : FilterState) (searchRadius : R) : RouteSegment :=
  let t := tally calc segment filters searchRadius in
  let normalizedCoverage :=
    if Nat.ltb 0 (totalPoints t) then divide (coverageScore t) (totalPoints t)
    else Num 0%R in
  {| path := segment;
     coverage := normalizedCoverage;
     coverageDetails := details t |}.

(** [calculateSegmentCoverage]: the returned segment and the calculator
    afterwards.  Callers that omit [searchRadius] pass
    [DEFAULT_SEARCH_RADIUS]. *)
Definition calculateSegmentCoverage (calc : CoverageCalculator)
    (segment : list LatLng) (filters : FilterState) (searchRadius : R)
    : RouteSegment * CoverageCalculator :=
  let cacheKey := getCacheKey segment filters in
  match cache calc !! cacheKey with
  | Some cached => (cached, calc)
  | None =>
      let result := computeSegment calc segment filters searchRadius in
      (result,
       {| points := points calc;
          spatialIndex := spatialIndex calc;
          cache := <[cacheKey := result]> (cache calc) |})
  end.

(** [getCacheKey] and [calculateSegmentCoverage] for a filter object with its
    properties in any creation order; the two definitions above are the case
    of [interfaceOrder]. *)
Definition getCacheKeyOf (segment : list LatLng) (filters : FilterObject) : string :=
  let segmentKey := join "|" (map (fun p => pairKey (lat p) (lng p)) segment) in
  let filterKey := JSON_stringify_object filters in
  segmentKey +:+ "|" +:+ filterKey.

Definition calculateSegmentCoverageOf (calc : CoverageCalculator)
    (segment : list LatLng) (filters : FilterObject) (searchRadius : R)
    : RouteSegment * CoverageCalculator :=
  let cacheKey := getCacheKeyOf segment filters in
  match cache calc !! cacheKey with
  | Some cached => (cached, calc)
  | None =>
      let result := computeSegment calc segment (lists filters) searchRadius in
      (result,
       {| points := points calc;
          spatialIndex := spatialIndex calc;
          cache := <[cacheKey := result]> (cache calc) |})
  end.

Definition getCoverageColor (c : number R) : string :=
  match c with
  | NaN => "hsl(NaN, 100%, 50%)"
  | Num x =>
      let x' := if Rlt_dec x 0 then Rmax 0 (Rmin 1 x)
                else if Rlt_dec 1 x then Rmax 0 (Rmin 1 x)
                else x in
      "hsl(" +:+ Number_toString (x' * 120)%R +:+ ", 100%, 50%)"
  end.

(** The loop "Split path into segments", from index [i] on, with the segments
    pushed so far.  [fuel] bounds the number of iterations.  The local
    [statusCount] is written and never read; it is left out. *)
Fixpoint analyzeLoop (fuel : nat) (path_ : list LatLng) (filters : FilterState)
    (i : nat) (calc : CoverageCalculator) (segments : list RouteSegment)
    : list RouteSegment * CoverageCalculator :=
  match fuel with
  | O => (segments, calc)
  | S fuel' =>
      if Nat.ltb i (length path_) then
        let segment := slice path_ i (i + SEGMENT_LENGTH) in
        let '(result, calc') :=
          calculateSegmentCoverage calc segment filters DEFAULT_SEARCH_RADIUS in
        let segments' :=
          if existsb gt0 (Object_values (coverageDetails result))
          then segments ++ [result] else segments in
        analyzeLoop fuel' path_ filters (i + SEGMENT_LENGTH) calc' segments'
      else (segments, calc)
  end.

(** "Calculate statistics". *)
Definition statistics (segments : list RouteSegment) : CoverageStats :=
  {| totalSegments := length segments;
     averageCoverage :=
       divide (fold_left (fun acc seg => lift2 Rplus acc (coverage seg))
                         segments (Num 0%R))
              (length segments);
     coverageDistribution :=
       map (fun seg =>
              {| entryCoverage := coverage seg;
                 color := getCoverageColor (coverage seg);
                 nearbyPoints :=
                   fold_left (lift2 Nat.add) (Object_values (coverageDetails seg))
                             (Num 0) |})
           segments |}.

(** [analyzeRouteCoverage].  Every iteration advances [i] by 5, so
    [length path_] iterations are enough (see [analyzeLoop_chunks]). *)
Definition analyzeRouteCoverage (calc : CoverageCalculator)
    (path_ : list LatLng) (filters : FilterState)
    : (list RouteSegment * CoverageStats) * CoverageCalculator :=
  let '(segments, calc') :=
    analyzeLoop (length path_) path_ filters 0 calc [] in
  ((segments, statistics segments), calc').

End Calculator.

(* ===================================================================== *)
(** * The route component (components/RouteCoverage.tsx) *)
(* ===================================================================== *)

(** [Set.prototype.add] on strings. *)
Definition Set_add_string (s : list string) (x : string) : list string :=
  if includes s x then s else s ++ [x].

(** [if (attr) set.add(attr)]: an attribute is added when it is truthy, that
    is present and not the empty string. *)
Definition addIfTruthy (s : list string) (attr : option string) : list string :=
  match attr with
  | Some x => if String.eqb x "" then s else Set_add_string s x
  | None => s
  end.

(** The four sets after one feature of [data.features.forEach]. *)
Definition addFeatureOptions (sets : FilterState) (feature : CoveragePoint)
    : FilterState :=
  let props := properties feature in
  {| countries := addIfTruthy (countries sets) (country props);
     phoneTypes := addIfTruthy (phoneTypes sets) (phone_type props);
     operators := addIfTruthy (operators sets) (Some (operator props));
     statuses := addIfTruthy (statuses sets) (Some (status props)) |}.

(** "Extract available filter options from data": the value handed to
    [setAvailableFilters]. *)
Definition availableFilterOptions (features : list CoveragePoint) : FilterState :=
  fold_left addFeatureOptions features
    {| countries := []; phoneTypes := []; operators := []; statuses := [] |}.

(* ===================================================================== *)
(** * Notions of the specification *)
(* ===================================================================== *)

(** One filter dimension as the specification words it: the allow-list is
    empty, or the attribute is a member of it (an absent attribute is a
    member of nothing). *)
Definition allowsAsSpecified (allowed : list string) (attr : option string) : bool :=
  match allowed with
  | [] => true
  | _ :: _ =>
      match attr with
      | Some s => includes allowed s
      | None => false
      end
  end.

(** The filter as the specification words it: all four dimensions. *)
Definition passesAsSpecified (filters : FilterState) (point : CoveragePoint) : bool :=
  let props := properties point in
  allowsAsSpecified (countries filters) (country props) &&
  allowsAsSpecified (phoneTypes filters) (phone_type props) &&
  allowsAsSpecified (operators filters) (Some (operator props)) &&
  allowsAsSpecified (statuses filters) (Some (status props)).

(** What one dimension of the filter does in the code, as a proposition. *)
Definition optionalAllowed (allowed : list string) (attr : option string) : Prop :=
  allowed = [] ∨ attr = None ∨ attr = Some "" ∨ ∃ s, attr = Some s ∧ In s allowed.

Definition requiredAllowed (allowed : list string) (attr : string) : Prop :=
  allowed = [] ∨ In attr allowed.

(** A filter list made wider without leaving "no filtering": values are only
    added, and an empty list stays empty. *)
Definition widened (l l' : list string) : Prop :=
  incl l l' ∧ (l = [] → l' = []).

Definition widenedFilters (f f' : FilterState) : Prop :=
  widened (countries f) (countries f') ∧
  widened (phoneTypes f) (phoneTypes f') ∧
  widened (operators f) (operators f') ∧
  widened (statuses f) (statuses f').

(** The weight table of the specification: 5G, 4G, 3G, and "other" for every
    other status. *)
Definition specWeight (status : string) : R :=
  if String.eqb status "5G" then 1%R
  else if String.eqb status "4G" then 0.7%R
  else if String.eqb status "3G" then 0.4%R
  else 0.1%R.

Fixpoint Rsum (l : list R) : R :=
  match l with
  | [] => 0%R
  | x :: l' => (x + Rsum l')%R
  end.

(** The mean weight of a list of statuses, 0 for the empty list. *)
Definition meanWeight (sts : list string) : R :=
  match sts with
  | [] => 0%R
  | _ :: _ => (Rsum (map specWeight sts) / INR (length sts))%R
  end.

(** The arithmetic mean of scores; not a number for the empty list. *)
Definition meanScore (scores : list (number R)) : number R :=
  match scores with
  | [] => NaN
  | _ :: _ =>
      lift1 (fun s => (s / INR (length scores))%R)
            (fold_right (lift2 Rplus) (Num 0%R) scores)
  end.

(** The sum of the counts of a breakdown. *)
Definition sumCounts (o : object (number nat)) : number nat :=
  fold_right (lift2 Nat.add) (Num 0) (map snd o).

(** [count > 0] holds of some count of the breakdown: a count that is a
    number above zero.  It does not hold of a count that is NaN. *)
Definition someCountPositive (o : object (number nat)) : Prop :=
  ∃ k n, In (k, Num n) o ∧ 0 < n.

(** A candidate passes both the filter and the distance test. *)
Definition qualifies (segment : list LatLng) (filters : FilterState)
    (searchRadius : R) (pr : pointRef) : bool :=
  passesFilters filters (snd pr) && isNearby segment searchRadius (snd pr).

(** The update of the three locals for a candidate that passes both tests. *)
Definition countPoint (t : Tally) (pr : pointRef) : Tally :=
  {| details := increment (details t) (status (properties (snd pr)));
     totalPoints := S (totalPoints t);
     coverageScore := lift2 Rplus (coverageScore t)
                                  (weightOf (status (properties (snd pr)))) |}.

(** The status of a point reference. *)
Definition statusOf (pr : pointRef) : string := status (properties (snd pr)).

(** Contiguous chunks of up to [SEGMENT_LENGTH] elements, in order. *)
Fixpoint chunksFrom {A} (fuel : nat) (l : list A) : list (list A) :=
  match fuel with
  | O => []
  | S fuel' =>
      match l with
      | [] => []
      | _ :: _ => firstn SEGMENT_LENGTH l :: chunksFrom fuel' (skipn SEGMENT_LENGTH l)
      end
  end.

Definition chunks {A} (l : list A) : list (list A) := chunksFrom (length l) l.

(** The coordinates of a route point, without its identity. *)
Definition coords (p : LatLng) : R * R := (lat p, lng p).

(** The characters [Number::toString] can produce: digits, sign, point,
    exponent, and the letters of Infinity and NaN. *)
Definition numberChar (c : ascii) : bool :=
  existsb (Ascii.eqb c) (String.list_ascii_of_string "0123456789.-+eInfityNa").

Fixpoint allChars (P : ascii → bool) (s : string) : bool :=
  match s with
  | EmptyString => true
  | String c s' => P c && allChars P s'
  end.

(** ** Reading a fingerprint back *)

(** No character of [s] is [c]. *)
Definition freeOf (c : ascii) (s : string) : bool :=
  allChars (fun x => negb (Ascii.eqb x c)) s.





(** ** Numerals *)

(** What the fingerprint needs of [Number::toString] on the numbers [D] a
    route can hold: distinct numbers have distinct numerals, and a numeral is
    made of [numberChar]s. *)
Definition numeralsOn (toStr : R → string) (D : R → Prop) : Prop :=
  (∀ x y, D x → D y → toStr x = toStr y → x = y) ∧
  (∀ x, D x → allChars numberChar (toStr x) = true).

Definition routeOn (D : R → Prop) (segment : list LatLng) : Prop :=
  Forall (fun p => D (lat p) ∧ D (lng p)) segment.

(** A score that is a number between 0 and 1. *)
Definition inRange (c : number R) : Prop := ∃ x, c = Num x ∧ (0 <= x <= 1)%R.

(** The number of references in [l] whose point has status [st]. *)
Definition countStatus (st : string) (l : list pointRef) : nat :=
  length (List.filter (fun pr => String.eqb (statusOf pr) st) l).

(** The four classes a breakdown is declared with. *)
Definition knownClasses : list string := ["5G"; "4G"; "3G"; "other"].

(** [l] lists, once each, the truthy values that [attr] takes on [features]. *)
Definition optionsOf (attr : CoveragePoint → option string)
    (features : list CoveragePoint) (l : list string) : Prop :=
  NoDup l ∧ ∀ s, In s l ↔ s ≠ "" ∧ ∃ p, In p features ∧ attr p = Some s.

(** The multiples of the cell size: the numbers the grid keys are built from. *)
Definition tenth (x : R) : Prop := ∃ z : Z, x = (IZR z * gridSize)%R.

(** The point is 0.3 degree (three cell widths) or more away from the route
    point, in latitude or in longitude. *)
Definition farApart (p : CoveragePoint) (q : LatLng) : Prop :=
  (0.3 <= Rabs (snd (coordinates p) - lat q))%R ∨
  (0.3 <= Rabs (fst (coordinates p) - lng q))%R.

Section SpecCalculator.

Variable Number_toString : R → string.

(** The cell of a point reference. *)
Definition cellOf (pr : pointRef) : string :=
  getGridKey Number_toString (snd (coordinates (snd pr))) (fst (coordinates (snd pr))).

(** All the buckets the segment looks at, in the order of the loops. *)
Definition visitedBuckets (calc : CoverageCalculator) (segment : list LatLng)
    (searchRadius : R) : list pointRef :=
  flat_map (fun key => default [] (spatialIndex calc !! key))
    (flat_map (fun point => getNearbyGridKeys Number_toString (lat point) (lng point) searchRadius)
              segment).

(** The candidates of a segment that pass both tests. *)
Definition qualifyingPoints (calc : CoverageCalculator) (segment : list LatLng)
    (filters : FilterState) (searchRadius : R) : list pointRef :=
  List.filter (qualifies segment filters searchRadius)
              (collectNearbyPoints Number_toString calc segment searchRadius).

(** [calculateSegmentCoverage] with the default radius on each chunk in turn. *)
Fixpoint visitChunks (calc : CoverageCalculator) (cs : list (list LatLng))
    (filters : FilterState) : list RouteSegment * CoverageCalculator :=
  match cs with
  | [] => ([], calc)
  | c :: cs' =>
      let '(r, calc1) :=
        calculateSegmentCoverage Number_toString calc c filters DEFAULT_SEARCH_RADIUS in
      let '(rs, calc2) := visitChunks calc1 cs' filters in
      (r :: rs, calc2)
  end.

(** Every cache entry is the segment computed for a route and filter with that
    fingerprint, at some radius. *)
Definition cacheSound (D : R → Prop) (calc : CoverageCalculator) : Prop :=
  ∀ k r, cache calc !! k = Some r →
    ∃ segment filters searchRadius,
      routeOn D segment ∧
      k = getCacheKey Number_toString segment filters ∧
      r = computeSegment Number_toString calc segment filters searchRadius.

(** The references of the array that fall into cell [k], in array order. *)
Definition cellMembers (k : string) (l : list pointRef) : list pointRef :=
  List.filter (fun pr => String.eqb (cellOf pr) k) l.

(** The calculators an analysis can pass through: the index of [pts], and a
    cache of segments that satisfy [P]. *)
Definition cacheAll (pts : list CoveragePoint) (P : RouteSegment → Prop)
    (calc : CoverageCalculator) : Prop :=
  spatialIndex calc = buildSpatialIndex Number_toString pts ∧
  ∀ k r, cache calc !! k = Some r → P r.

End SpecCalculator.

(** ** Data of the examples *)

(** A numeral function for the examples: the decimal numeral of the integer
    part, which is [Number::toString] on integers of magnitude below 10^21. *)
Definition integerNumeral (x : R) : string :=
  NilEmpty.string_of_int (Z.to_int (Int_part x)).

Definition integral (x : R) : Prop := ∃ z : Z, x = IZR z.

Definition noFilters : FilterState :=
  {| countries := []; phoneTypes := []; operators := []; statuses := [] |}.

Definition onlyOperatorA : FilterState :=
  {| countries := []; phoneTypes := []; operators := ["A"]; statuses := [] |}.

Definition onlyCanada : FilterState :=
  {| countries := ["CA"]; phoneTypes := []; operators := []; statuses := [] |}.

Definition origin : LatLng := {| ref := 0; lat := 0; lng := 0 |}.


Definition operatorsAB : FilterState :=
  {| countries := []; phoneTypes := []; operators := ["A"; "B"]; statuses := [] |}.

(** A point of operator B with the given status at [[lng_, lat_]], with no
    country and no phone type (as in the test data of the repository). *)
Definition pointAt (st : string) (lng_ lat_ : R) : CoveragePoint :=
  {| properties := {| operator := "B"; city_name := "Test City"; status := st;
                      country := None; phone_type := None |};
     coordinates := (lng_, lat_) |}.

(** A numeral function for the examples with tenths: the decimal numeral of
    ten times the number. *)
Definition tenthsNumeral (x : R) : string := integerNumeral (x * 10)%R.

(** Only 5G points are asked for. *)
Definition only5G : FilterState :=
  {| countries := []; phoneTypes := []; operators := []; statuses := ["5G"] |}.

(* ===================================================================== *)
(** * Properties *)
(* ===================================================================== *)

(** ** Numbers *)

Section RealFacts.
Local Open Scope R_scope.

Lemma Rleb_spec a b : Rleb a b = true ↔ a <= b.
Proof. unfold Rleb. destruct (Rle_dec a b); split; auto; discriminate. Qed.

Lemma Rleb_true a b : a <= b → Rleb a b = true.
Proof. apply Rleb_spec. Qed.

Lemma Rleb_false a b : b < a → Rleb a b = false.
Proof. intros H. unfold Rleb. destruct (Rle_dec a b); [lra | done]. Qed.

Lemma PI_bounds : 3 < PI <= 4.
Proof. split; [pose proof PI2_3_2; lra | apply PI_4]. Qed.

Lemma Math_atan2_pos y x : 0 < x → Math_atan2 y x = atan (y / x).
Proof.
  intros Hx. unfold Math_atan2.
  destruct (total_order_T 0 x) as [[H | H] | H]; [done | lra | lra].
Qed.

Lemma Math_atan2_sin_cos x : 0 < x < PI / 2 → Math_atan2 (sin x) (cos x) = x.
Proof.
  intros [H0 H1].
  assert (0 < cos x) by (apply cos_gt_0; lra).
  rewrite Math_atan2_pos by done.
  change (sin x / cos x) with (tan x). apply atan_tan. lra.
Qed.

Lemma Math_floor_unit x : 0 <= x < 1 → Math_floor x = 0.
Proof.
  intros H. unfold Math_floor. f_equal. symmetry. apply Int_part_spec. simpl. lra.
Qed.

Lemma sin_half_sqr x : sin (x / 2) * sin (x / 2) = (1 - cos x) / 2.
Proof.
  replace x with (2 * (x / 2)) at 3 by lra.
  rewrite cos_2a_sin. lra.
Qed.

(** The haversine of the central angle lies in [[0, 1]], for any three
    angles. *)
Lemma haversine_bounds p1 p2 dl :
  0 <= sin ((p2 - p1) / 2) * sin ((p2 - p1) / 2) +
       cos p1 * cos p2 * sin (dl / 2) * sin (dl / 2) <= 1.
Proof.
  replace (cos p1 * cos p2 * sin (dl / 2) * sin (dl / 2))
    with (cos p1 * cos p2 * (sin (dl / 2) * sin (dl / 2))) by ring.
  rewrite !sin_half_sqr, cos_minus.
  pose proof (sin2_cos2 p1) as H1. pose proof (sin2_cos2 p2) as H2.
  pose proof (COS_bound dl) as [Hc0 Hc1].
  unfold Rsqr in *.
  set (s1 := sin p1) in *. set (c1 := cos p1) in *.
  set (s2 := sin p2) in *. set (c2 := cos p2) in *.
  set (c := cos dl) in *.
  assert (Hk : -1 <= s1 * s2 + c1 * c2 * c <= 1).
  { assert ((s1 * s2 + c1 * c2 * c) ^ 2 <= 1).
    { assert (Hcs : (s1 * s2 + c1 * c2 * c) ^ 2 <=
                    (s1 * s1 + c1 * c1) * (s2 * s2 + (c2 * c) * (c2 * c))).
      { pose proof (pow2_ge_0 (s1 * (c2 * c) - c1 * s2)) as Hsq.
        replace ((s1 * s1 + c1 * c1) * (s2 * s2 + c2 * c * (c2 * c)))
          with ((s1 * s2 + c1 * c2 * c) ^ 2 + (s1 * (c2 * c) - c1 * s2) ^ 2) by ring.
        lra. }
      assert (Hc2 : 0 <= c2 * c2) by nra.
      assert (Hcc : 0 <= 1 - c * c) by nra.
      pose proof (Rmult_le_pos _ _ Hc2 Hcc) as Hprod.
      assert ((c2 * c) * (c2 * c) <= c2 * c2) by lra.
      nra. }
    split; nra. }
  split; nra.
Qed.

(** Both arguments of [Math.sqrt] in [haversineDistance] are in [[0, 1]],
    where [sqrt] is the square root. *)
Lemma haversineDistance_sqrt_arguments lat1 lon1 lat2 lon2 :
  let a := sin (toRad (lat2 - lat1) / 2) * sin (toRad (lat2 - lat1) / 2) +
           cos (toRad lat1) * cos (toRad lat2) *
           sin (toRad (lon2 - lon1) / 2) * sin (toRad (lon2 - lon1) / 2) in
  0 <= a <= 1 ∧ 0 <= 1 - a <= 1.
Proof.
  cbv zeta.
  replace (toRad (lat2 - lat1)) with (toRad lat2 - toRad lat1)
    by (unfold toRad; lra).
  pose proof (haversine_bounds (toRad lat1) (toRad lat2) (toRad (lon2 - lon1))).
  lra.
Qed.

(** A point is at distance 0 from itself. *)
Lemma haversineDistance_same la lo : haversineDistance la lo la lo = 0.
Proof.
  unfold haversineDistance, toRad; cbv zeta.
  replace ((la - la) * (PI / 180) / 2) with 0 by lra.
  replace ((lo - lo) * (PI / 180) / 2) with 0 by lra.
  rewrite sin_0.
  replace (0 * 0 + cos (la * (PI / 180)) * cos (la * (PI / 180)) * 0 * 0)
    with 0 by lra.
  rewrite sqrt_0. replace (1 - 0) with 1 by lra. rewrite sqrt_1.
  rewrite Math_atan2_pos by lra.
  replace (0 / 1) with 0 by lra. rewrite atan_0. lra.
Qed.

(** Along the equator the distance is the arc: 6371 km times the difference
    of longitude in radians. *)
Lemma haversineDistance_equator d :
  0 < d < 180 → haversineDistance 0 d 0 0 = 6371 * (d * (PI / 180)).
Proof.
  intros [Hd0 Hd1]. pose proof PI_RGT_0 as Hpi.
  set (x := d * (PI / 360)).
  assert (Hx : 0 < x < PI / 2) by (unfold x; split; nra).
  assert (Hs : 0 < sin x) by (apply sin_gt_0; lra).
  assert (Hc : 0 < cos x) by (apply cos_gt_0; lra).
  unfold haversineDistance, toRad; cbv zeta.
  replace ((0 - 0) * (PI / 180) / 2) with 0 by lra.
  replace ((0 - d) * (PI / 180) / 2) with (- x) by (unfold x; lra).
  replace (0 * (PI / 180)) with 0 by lra.
  rewrite sin_0, cos_0, sin_neg.
  replace (0 * 0 + 1 * 1 * - sin x * - sin x) with (Rsqr (sin x))
    by (unfold Rsqr; lra).
  rewrite sqrt_Rsqr by lra.
  replace (1 - Rsqr (sin x)) with (Rsqr (cos x)).
  2:{ pose proof (sin2_cos2 x). lra. }
  rewrite sqrt_Rsqr by lra.
  rewrite Math_atan2_sin_cos by done. unfold x. lra.
Qed.

(** Half a hundredth of a degree of longitude on the equator is about 556 m:
    more than the 0.01 the code compares with, less than a kilometre. *)
Lemma haversineDistance_556m :
  0.5 < haversineDistance 0 0.005 0 0 < 1.
Proof.
  rewrite haversineDistance_equator by lra. pose proof PI_bounds. lra.
Qed.

End RealFacts.

(** ** The filter *)

Lemma includes_In l x : includes l x = true ↔ In x l.
Proof.
  unfold includes. rewrite existsb_exists. split.
  - intros (y & Hy & He). apply String.eqb_eq in He. by subst.
  - intros H. exists x. split; [done | apply String.eqb_refl].
Qed.

Lemma includes_false l x : includes l x = false ↔ ¬ In x l.
Proof.
  rewrite <- includes_In. destruct (includes l x); split; done.
Qed.

Lemma length_pos_false {A} (l : list A) : Nat.ltb 0 (length l) = false ↔ l = [].
Proof. destruct l; simpl; split; try done. Qed.

Lemma rejectsRequired_false allowed attr :
  rejectsRequired allowed attr = false ↔ requiredAllowed allowed attr.
Proof.
  unfold rejectsRequired, requiredAllowed.
  rewrite andb_false_iff, length_pos_false, negb_false_iff, includes_In.
  done.
Qed.

Lemma rejectsOptional_false allowed attr :
  rejectsOptional allowed attr = false ↔ optionalAllowed allowed attr.
Proof.
  unfold rejectsOptional, optionalAllowed.
  rewrite andb_false_iff, length_pos_false.
  destruct attr as [s|].
  - rewrite andb_false_iff, !negb_false_iff, String.eqb_eq, includes_In.
    split.
    + intros [H | [H | H]]; [by left | right; right; left; by subst | ].
      right; right; right. by exists s.
    + intros [H | [H | [H | (s' & H & Hin)]]]; simplify_eq; auto.
  - split; [intros [H | H]; auto | intros _; by right].
Qed.

(** C3, as the code has it: a point passes the filter exactly when, on every
    dimension, the allow-list is empty or holds the point's attribute; on the
    two optional dimensions (country, phone type) a point whose attribute is
    absent or empty passes as well, whatever the list. *)
Theorem passesFilters_iff (filters : FilterState) (point : CoveragePoint) :
  passesFilters filters point = true ↔
    optionalAllowed (countries filters) (country (properties point)) ∧
    optionalAllowed (phoneTypes filters) (phone_type (properties point)) ∧
    requiredAllowed (operators filters) (operator (properties point)) ∧
    requiredAllowed (statuses filters) (status (properties point)).
Proof.
  rewrite <- !rejectsOptional_false, <- !rejectsRequired_false.
  unfold passesFilters; cbv zeta.
  destruct (rejectsOptional (countries filters) _);
    destruct (rejectsOptional (phoneTypes filters) _);
    destruct (rejectsRequired (operators filters) _);
    destruct (rejectsRequired (statuses filters) _); intuition congruence.
Qed.

(** C3 as written fails: a point without a country passes the allow-list
    ["CA"], which the wording of the specification excludes. *)
Lemma passesFilters_absent_country :
  passesFilters onlyCanada (pointAt "5G" 0 0) = true ∧
  passesAsSpecified onlyCanada (pointAt "5G" 0 0) = false.
Proof. split; reflexivity. Qed.

(** ** The spatial index and the candidates of a segment *)

Lemma fold_left_flat_map {A B C} (f : A → C → A) (g : B → list C) l a :
  fold_left (fun acc x => fold_left f (g x) acc) l a = fold_left f (flat_map g l) a.
Proof.
  revert a. induction l as [|x l IH]; intros a; simpl; [done|].
  by rewrite fold_left_app, IH.
Qed.

Lemma Set_add_keeps s p x : In x s → In x (Set_add s p).
Proof.
  unfold Set_add. intros Hx. case_match; [done|].
  apply in_or_app. by left.
Qed.

Lemma Set_add_origin s p x : In x (Set_add s p) → In x s ∨ x = p.
Proof.
  unfold Set_add. intros Hx. case_match; [by left|].
  apply in_app_or in Hx as [Hx | [Hx | []]]; auto.
Qed.

Lemma Set_add_member s p : ∃ x, In x (Set_add s p) ∧ fst x = fst p.
Proof.
  unfold Set_add. case_match eqn:E.
  - apply existsb_exists in E as (x & Hx & He).
    apply Nat.eqb_eq in He. by exists x.
  - exists p. split; [apply in_or_app; right; by left | done].
Qed.

Lemma Set_add_NoDup s p : NoDup (map fst s) → NoDup (map fst (Set_add s p)).
Proof.
  unfold Set_add. intros H. case_match eqn:E; [done|].
  rewrite map_app. simpl. apply NoDup_app. split; [done|].
  split; [|apply NoDup_singleton].
  intros i Hi Hp. apply list_elem_of_In in Hi, Hp.
  destruct Hp as [<- | []]. apply in_map_iff in Hi as (x & Hx & Hin).
  assert (existsb (fun q => Nat.eqb (fst q) (fst p)) s = true); [|congruence].
  apply existsb_exists. exists x. split; [done | by apply Nat.eqb_eq].
Qed.

Lemma fold_Set_add_keeps l s x : In x s → In x (fold_left Set_add l s).
Proof.
  revert s. induction l as [|p l IH]; intros s H; simpl; [done|].
  apply IH. by apply Set_add_keeps.
Qed.

Lemma fold_Set_add_origin l s x :
  In x (fold_left Set_add l s) → In x s ∨ In x l.
Proof.
  revert s. induction l as [|p l IH]; intros s H; simpl in *; [by left|].
  apply IH in H as [H | H]; [|by right; right].
  apply Set_add_origin in H as [H | H]; [by left | right; left; by subst].
Qed.

Lemma fold_Set_add_member l s p :
  In p l → ∃ x, In x (fold_left Set_add l s) ∧ fst x = fst p.
Proof.
  revert s. induction l as [|q l IH]; intros s H; simpl in *; [done|].
  destruct H as [-> | H]; [|by apply IH].
  destruct (Set_add_member s p) as (x & Hx & He).
  exists x. split; [by apply fold_Set_add_keeps | done].
Qed.

Lemma fold_Set_add_NoDup l s :
  NoDup (map fst s) → NoDup (map fst (fold_left Set_add l s)).
Proof.
  revert s. induction l as [|p l IH]; intros s H; simpl; [done|].
  apply IH. by apply Set_add_NoDup.
Qed.

Section IndexFacts.

Variable toStr : R → string.

(** The key pushed for [i = 0] and [j = 0], the fifth of nine, is the key of
    the cell itself. *)
Lemma getNearbyGridKeys_centre lat_ lng_ radius :
  getNearbyGridKeys toStr lat_ lng_ radius !! 4 = Some (getGridKey toStr lat_ lng_).
Proof.
  unfold getNearbyGridKeys, getGridKey; cbv zeta; simpl.
  f_equal. unfold pairKey. f_equal; [f_equal; lra | do 2 f_equal; lra].
Qed.

Lemma getNearbyGridKeys_length lat_ lng_ radius :
  length (getNearbyGridKeys toStr lat_ lng_ radius) = 9.
Proof. reflexivity. Qed.

Lemma indexPoint_insert index pr :
  indexPoint toStr index pr =
  <[cellOf toStr pr := default [] (index !! cellOf toStr pr) ++ [pr]]> index.
Proof.
  unfold indexPoint, cellOf. destruct (coordinates (snd pr)) as [lo la].
  simpl. destruct (index !! getGridKey toStr la lo) eqn:E; simpl.
  - by rewrite E.
  - by rewrite lookup_insert_eq, insert_insert_eq.
Qed.

Lemma indexPoint_keeps index pr k b x :
  index !! k = Some b → In x b →
  ∃ b', indexPoint toStr index pr !! k = Some b' ∧ In x b'.
Proof.
  intros Hk Hx. rewrite indexPoint_insert.
  destruct (decide (cellOf toStr pr = k)) as [<- | Hne].
  - rewrite lookup_insert_eq, Hk. simpl. eexists. split; [done|].
    apply in_or_app. by left.
  - rewrite lookup_insert_ne by done. eauto.
Qed.

Lemma indexPoint_adds index pr :
  ∃ b, indexPoint toStr index pr !! cellOf toStr pr = Some b ∧ In pr b.
Proof.
  rewrite indexPoint_insert, lookup_insert_eq. eexists. split; [done|].
  apply in_or_app. right. by left.
Qed.

Lemma indexPoint_origin index pr k b x :
  indexPoint toStr index pr !! k = Some b → In x b →
  x = pr ∨ ∃ b', index !! k = Some b' ∧ In x b'.
Proof.
  rewrite indexPoint_insert.
  destruct (decide (cellOf toStr pr = k)) as [<- | Hne].
  - rewrite lookup_insert_eq. intros [= <-] Hx.
    apply in_app_or in Hx as [Hx | [Hx | []]]; [|by left].
    right. destruct (index !! cellOf toStr pr); [eauto | done].
  - rewrite lookup_insert_ne by done. eauto.
Qed.

Lemma fold_indexPoint_keeps l index k b x :
  index !! k = Some b → In x b →
  ∃ b', fold_left (indexPoint toStr) l index !! k = Some b' ∧ In x b'.
Proof.
  revert index b. induction l as [|pr l IH]; intros index b Hk Hx; simpl; [eauto|].
  destruct (indexPoint_keeps index pr k b x Hk Hx) as (b' & Hk' & Hx'). eauto.
Qed.

Lemma fold_indexPoint_adds l index pr :
  In pr l → ∃ b, fold_left (indexPoint toStr) l index !! cellOf toStr pr = Some b ∧ In pr b.
Proof.
  revert index. induction l as [|q l IH]; intros index H; simpl in *; [done|].
  destruct H as [-> | H]; [|by apply IH].
  destruct (indexPoint_adds index pr) as (b & Hk & Hx).
  eapply fold_indexPoint_keeps; eauto.
Qed.

Lemma fold_indexPoint_origin l index k b x :
  fold_left (indexPoint toStr) l index !! k = Some b → In x b →
  In x l ∨ ∃ b', index !! k = Some b' ∧ In x b'.
Proof.
  revert index. induction l as [|pr l IH]; intros index Hk Hx; simpl in *.
  - right. eauto.
  - destruct (IH _ Hk Hx) as [H | (b' & Hk' & Hx')]; [by left; right|].
    destruct (indexPoint_origin _ _ _ _ _ Hk' Hx') as [-> | H]; [left; by left|].
    by right.
Qed.

Lemma imap_pair_In {A} (l : list A) i x :
  In (i, x) (imap (fun i x => (i, x)) l) ↔ l !! i = Some x.
Proof.
  rewrite <- list_elem_of_In, elem_of_lookup_imap. split.
  - intros (j & y & [= -> ->] & H). done.
  - intros H. by exists i, x.
Qed.

(** Index build: the bucket of a point's cell holds the point. *)
Lemma buildSpatialIndex_member pts i p :
  pts !! i = Some p →
  ∃ b, buildSpatialIndex toStr pts !! cellOf toStr (i, p) = Some b ∧ In (i, p) b.
Proof.
  intros H. apply fold_indexPoint_adds. by apply imap_pair_In.
Qed.

(** Index build: a bucket holds nothing but points of the array. *)
Lemma buildSpatialIndex_origin pts k b x :
  buildSpatialIndex toStr pts !! k = Some b → In x b → pts !! fst x = Some (snd x).
Proof.
  intros Hk Hx.
  destruct (fold_indexPoint_origin _ _ _ _ _ Hk Hx) as [H | (b' & H & _)].
  - destruct x as [i p]. by apply imap_pair_In in H.
  - by rewrite lookup_empty in H.
Qed.

Lemma collectNearbyPoints_flat calc segment searchRadius :
  collectNearbyPoints toStr calc segment searchRadius =
  fold_left Set_add (visitedBuckets toStr calc segment searchRadius) [].
Proof.
  unfold collectNearbyPoints, visitedBuckets.
  rewrite (fold_left_flat_map
             (fun nearby key =>
                fold_left Set_add (default [] (spatialIndex calc !! key)) nearby)
             (fun point => getNearbyGridKeys toStr (lat point) (lng point) searchRadius)).
  by rewrite (fold_left_flat_map Set_add).
Qed.

Lemma collectNearbyPoints_NoDup calc segment searchRadius :
  NoDup (map fst (collectNearbyPoints toStr calc segment searchRadius)).
Proof.
  rewrite collectNearbyPoints_flat. apply fold_Set_add_NoDup. constructor.
Qed.

Lemma collectNearbyPoints_origin calc pts segment searchRadius x :
  spatialIndex calc = buildSpatialIndex toStr pts →
  In x (collectNearbyPoints toStr calc segment searchRadius) →
  pts !! fst x = Some (snd x).
Proof.
  rewrite collectNearbyPoints_flat. intros Hidx H.
  apply fold_Set_add_origin in H as [[] | H].
  unfold visitedBuckets in H. apply in_flat_map in H as (k & _ & H).
  rewrite Hidx in H.
  destruct (buildSpatialIndex toStr pts !! k) as [b|] eqn:E; [|done].
  eapply buildSpatialIndex_origin; eauto.
Qed.

(** A point of the array is a candidate of every segment that holds a route
    point with the coordinates of the point. *)
Lemma collectNearbyPoints_self calc pts i p segment q searchRadius :
  spatialIndex calc = buildSpatialIndex toStr pts →
  pts !! i = Some p → In q segment →
  lat q = snd (coordinates p) → lng q = fst (coordinates p) →
  In (i, p) (collectNearbyPoints toStr calc segment searchRadius).
Proof.
  intros Hidx Hp Hq Hlat Hlng.
  destruct (buildSpatialIndex_member pts i p Hp) as (b & Hb & Hin).
  assert (Hv : In (i, p) (visitedBuckets toStr calc segment searchRadius)).
  { unfold visitedBuckets. apply in_flat_map. exists (cellOf toStr (i, p)). split.
    - apply in_flat_map. exists q. split; [done|].
      unfold cellOf; cbn [fst snd]. rewrite <- Hlat, <- Hlng.
      apply list_elem_of_In, list_elem_of_lookup. exists 4.
      apply getNearbyGridKeys_centre.
    - cbv beta. by rewrite Hidx, Hb. }
  pose proof (fold_Set_add_member _ [] _ Hv) as (x & Hx & He).
  rewrite <- collectNearbyPoints_flat in Hx.
  pose proof (collectNearbyPoints_origin _ _ _ _ _ Hidx Hx) as Ho.
  simpl in He. destruct x as [j p']; simpl in *; subst j.
  rewrite Hp in Ho. by injection Ho as <-.
Qed.

(** With one point in the array and one route point in its cell, the point is
    the only candidate. *)
Lemma collectNearbyPoints_single calc p q searchRadius :
  spatialIndex calc = buildSpatialIndex toStr [p] →
  getGridKey toStr (lat q) (lng q) =
    getGridKey toStr (snd (coordinates p)) (fst (coordinates p)) →
  collectNearbyPoints toStr calc [q] searchRadius = [(0, p)].
Proof.
  intros Hidx Hkey.
  assert (Hin : In (0, p) (collectNearbyPoints toStr calc [q] searchRadius)).
  { destruct (buildSpatialIndex_member [p] 0 p eq_refl) as (b & Hb & Hin).
    assert (Hv : In (0, p) (visitedBuckets toStr calc [q] searchRadius)).
    { unfold visitedBuckets. apply in_flat_map. exists (cellOf toStr (0, p)). split.
      - apply in_flat_map. exists q. split; [by left|].
        unfold cellOf; cbn [fst snd]. rewrite <- Hkey.
        apply list_elem_of_In, list_elem_of_lookup. exists 4.
        apply getNearbyGridKeys_centre.
      - cbv beta. by rewrite Hidx, Hb. }
    pose proof (fold_Set_add_member _ [] _ Hv) as (x & Hx & He).
    rewrite <- collectNearbyPoints_flat in Hx.
    pose proof (collectNearbyPoints_origin _ _ _ _ _ Hidx Hx) as Ho.
    destruct x as [j p']; simpl in *; subst j. by injection Ho as <-. }
  pose proof (collectNearbyPoints_NoDup calc [q] searchRadius) as Hnd.
  assert (Hall : ∀ x, In x (collectNearbyPoints toStr calc [q] searchRadius)
                      → x = (0, p)).
  { intros [j p'] Hx. apply (collectNearbyPoints_origin _ _ _ _ _ Hidx) in Hx.
    simpl in Hx. destruct j; simpl in Hx; [by injection Hx as -> | done]. }
  destruct (collectNearbyPoints toStr calc [q] searchRadius)
    as [|x [|y l]]; [done | | ].
  - f_equal. apply Hall. by left.
  - rewrite (Hall x), (Hall y) in Hnd by (simpl; auto).
    simpl in Hnd. apply NoDup_cons in Hnd as [Hnd _].
    exfalso. apply Hnd. by left.
Qed.

End IndexFacts.

(** ** The scoring loop *)

Lemma processPoint_qualifies segment filters searchRadius t pr :
  processPoint segment filters searchRadius t pr =
  if qualifies segment filters searchRadius pr then countPoint t pr else t.
Proof.
  unfold processPoint, qualifies, countPoint.
  destruct (passesFilters filters (snd pr)); simpl; [|done].
  by destruct (isNearby segment searchRadius (snd pr)).
Qed.

Lemma fold_processPoint segment filters searchRadius l t :
  fold_left (processPoint segment filters searchRadius) l t =
  fold_left countPoint (List.filter (qualifies segment filters searchRadius) l) t.
Proof.
  revert t. induction l as [|pr l IH]; intros t; simpl; [done|].
  rewrite processPoint_qualifies.
  destruct (qualifies segment filters searchRadius pr); simpl; apply IH.
Qed.

Lemma totalPoints_fold_countPoint l t :
  totalPoints (fold_left countPoint l t) = totalPoints t + length l.
Proof.
  revert t. induction l as [|pr l IH]; intros t; simpl; [lia|].
  rewrite IH. simpl. lia.
Qed.

(** A candidate is counted exactly when it passes the filter and lies within
    [searchRadius], in the unit of [haversineDistance], of a route point. *)
Lemma processPoint_counts segment filters searchRadius t pr :
  totalPoints (processPoint segment filters searchRadius t pr) = S (totalPoints t) ↔
    passesFilters filters (snd pr) = true ∧
    ∃ q, In q segment ∧
         (haversineDistance (snd (coordinates (snd pr))) (fst (coordinates (snd pr)))
                            (lat q) (lng q) <= searchRadius)%R.
Proof.
  rewrite processPoint_qualifies. unfold qualifies, isNearby.
  destruct (coordinates (snd pr)) as [lo la]. simpl.
  destruct (passesFilters filters (snd pr)); simpl.
  - destruct (existsb _ segment) eqn:E; simpl.
    + apply existsb_exists in E as (q & Hq & Hle). apply Rleb_spec in Hle.
      split; [eauto | done].
    + split; [lia|]. intros (_ & q & Hq & Hle).
      assert (existsb (fun p => Rleb (haversineDistance la lo (lat p) (lng p)) searchRadius)
                      segment = true); [|congruence].
      apply existsb_exists. exists q. split; [done | by apply Rleb_spec].
  - split; [lia | intros [? _]; done].
Qed.

Lemma filter_length_le {A} (P Q : A → bool) l :
  (∀ x, P x = true → Q x = true) →
  length (List.filter P l) ≤ length (List.filter Q l).
Proof.
  intros H. induction l as [|x l IH]; simpl; [done|].
  destruct (P x) eqn:E.
  - rewrite (H x E). simpl. lia.
  - destruct (Q x); simpl; lia.
Qed.

Lemma rejectsRequired_widened l l' attr :
  widened l l' → rejectsRequired l attr = false → rejectsRequired l' attr = false.
Proof.
  intros [Hincl Hempty]. rewrite !rejectsRequired_false.
  intros [-> | H]; [left; by apply Hempty | right; by apply Hincl].
Qed.

Lemma rejectsOptional_widened l l' attr :
  widened l l' → rejectsOptional l attr = false → rejectsOptional l' attr = false.
Proof.
  intros [Hincl Hempty]. rewrite !rejectsOptional_false.
  intros [-> | [H | [H | (s & H & Hin)]]]; unfold optionalAllowed; auto.
  right; right; right. exists s. split; [done | by apply Hincl].
Qed.

Lemma passesFilters_widened f f' point :
  widenedFilters f f' → passesFilters f point = true → passesFilters f' point = true.
Proof.
  intros (Hc & Hp & Ho & Hs). unfold passesFilters; cbv zeta.
  destruct (rejectsOptional (countries f) _) eqn:E1; [done|].
  destruct (rejectsOptional (phoneTypes f) _) eqn:E2; [done|].
  destruct (rejectsRequired (operators f) _) eqn:E3; [done|].
  destruct (rejectsRequired (statuses f) _) eqn:E4; [done|].
  intros _.
  rewrite (rejectsOptional_widened _ _ _ Hc E1), (rejectsOptional_widened _ _ _ Hp E2),
    (rejectsRequired_widened _ _ _ Ho E3), (rejectsRequired_widened _ _ _ Hs E4).
  done.
Qed.

(** *** Weights *)

Section WeightFacts.
Local Open Scope R_scope.

Lemma weightOf_specWeight st :
  ¬ In st Object_prototype_keys → weightOf st = Num (specWeight st).
Proof.
  intros Hproto. unfold weightOf, specWeight, get, COVERAGE_WEIGHTS.
  destruct (existsb (String.eqb st) Object_prototype_keys) eqn:E.
  { exfalso. apply Hproto. apply existsb_exists in E as (k & Hk & He).
    apply String.eqb_eq in He. by subst. }
  simpl.
  destruct (String.eqb st "5G"); [destruct (Req_EM_T 1 0); [lra | done]|].
  destruct (String.eqb st "4G"); [destruct (Req_EM_T 0.7 0); [lra | done]|].
  destruct (String.eqb st "3G"); [destruct (Req_EM_T 0.4 0); [lra | done]|].
  destruct (String.eqb st "other"); [destruct (Req_EM_T 0.1 0); [lra | done]|].
  done.
Qed.

Lemma specWeight_bounds st : 0 < specWeight st <= 1.
Proof.
  unfold specWeight.
  destruct (String.eqb st "5G"); [lra|].
  destruct (String.eqb st "4G"); [lra|].
  destruct (String.eqb st "3G"); lra.
Qed.

Lemma Rsum_specWeight_bounds sts :
  0 <= Rsum (map specWeight sts) <= INR (length sts).
Proof.
  induction sts as [|st sts IH]; [simpl; lra|].
  change (length (st :: sts)) with (S (length sts)). rewrite S_INR. simpl.
  pose proof (specWeight_bounds st). lra.
Qed.

Lemma meanWeight_bounds sts : 0 <= meanWeight sts <= 1.
Proof.
  destruct sts as [|st sts]; [simpl; lra|].
  unfold meanWeight.
  pose proof (Rsum_specWeight_bounds (st :: sts)) as [H0 H1].
  assert (Hn : 0 < INR (length (st :: sts))) by (apply lt_0_INR; simpl; lia).
  split.
  - apply Rmult_le_pos; [done|]. left. by apply Rinv_0_lt_compat.
  - apply Rmult_le_reg_r with (r := INR (length (st :: sts))); [done|].
    unfold Rdiv. rewrite Rmult_assoc, Rinv_l by lra. lra.
Qed.

Lemma coverageScore_fold_countPoint l t s :
  Forall (fun pr => ¬ In (statusOf pr) Object_prototype_keys) l →
  coverageScore t = Num s →
  coverageScore (fold_left countPoint l t) =
  Num (s + Rsum (map specWeight (map statusOf l))).
Proof.
  revert t s. induction l as [|pr l IH]; intros t s Hl Ht; simpl.
  - rewrite Ht. f_equal. lra.
  - apply Forall_cons in Hl as [Hpr Hl].
    rewrite (IH _ (s + specWeight (statusOf pr)) Hl).
    + f_equal. lra.
    + simpl. rewrite Ht. unfold statusOf in *. by rewrite weightOf_specWeight.
Qed.

End WeightFacts.

(** *** The breakdown *)

(** A point of one of the four classes increments that class and nothing
    else; the keys stay the four classes. *)
Lemma increment_known_class (n5 n4 n3 no : number nat) st :
  In st ["5G"; "4G"; "3G"; "other"] →
  let o := [("5G", n5); ("4G", n4); ("3G", n3); ("other", no)] in
  Object_keys (increment o st) = ["5G"; "4G"; "3G"; "other"] ∧
  getOwn (increment o st) st =
    match getOwn o st with Some v => Some (lift1 S v) | None => None end ∧
  ∀ k, k ≠ st → getOwn (increment o st) k = getOwn o k.
Proof.
  intros Hst o.
  assert (Hcases : st = "5G" ∨ st = "4G" ∨ st = "3G" ∨ st = "other")
    by (simpl in Hst; intuition).
  destruct Hcases as [-> | [-> | [-> | ->]]];
    (split; [reflexivity | split; [reflexivity|]]);
    intros k Hk; apply String.eqb_neq in Hk; unfold increment, put, get; simpl;
    rewrite ?Hk; reflexivity.
Qed.

(** A status that is no key of the breakdown and not ["__proto__"] becomes a
    new key of it, with the count NaN; no count of the four classes moves. *)
Lemma increment_unknown_class (o : object (number nat)) st :
  getOwn o st = None → st ≠ "__proto__" →
  increment o st = o ++ [(st, NaN)].
Proof.
  intros Hown Hproto. unfold increment, put, get. rewrite Hown.
  destruct (String.eqb_spec st "__proto__"); [done|].
  by destruct (existsb (String.eqb st) Object_prototype_keys).
Qed.

(** ** calculateSegmentCoverage *)

Section SegmentFacts.

Variable toStr : R → string.

Lemma tally_qualifying calc segment filters searchRadius :
  tally toStr calc segment filters searchRadius =
  fold_left countPoint (qualifyingPoints toStr calc segment filters searchRadius)
            initialTally.
Proof. unfold tally, qualifyingPoints. apply fold_processPoint. Qed.

Lemma totalPoints_tally calc segment filters searchRadius :
  totalPoints (tally toStr calc segment filters searchRadius) =
  length (qualifyingPoints toStr calc segment filters searchRadius).
Proof. rewrite tally_qualifying, totalPoints_fold_countPoint. done. Qed.

Lemma calculateSegmentCoverage_miss calc segment filters searchRadius :
  cache calc !! getCacheKey toStr segment filters = None →
  calculateSegmentCoverage toStr calc segment filters searchRadius =
  (computeSegment toStr calc segment filters searchRadius,
   {| points := points calc;
      spatialIndex := spatialIndex calc;
      cache := <[getCacheKey toStr segment filters :=
                   computeSegment toStr calc segment filters searchRadius]>
                 (cache calc) |}).
Proof. intros H. unfold calculateSegmentCoverage; cbv zeta. by rewrite H. Qed.

Lemma calculateSegmentCoverage_hit calc segment filters searchRadius cached :
  cache calc !! getCacheKey toStr segment filters = Some cached →
  calculateSegmentCoverage toStr calc segment filters searchRadius = (cached, calc).
Proof. intros H. unfold calculateSegmentCoverage; cbv zeta. by rewrite H. Qed.

(** After a call the cache holds the returned segment under the fingerprint,
    and the index is the one before. *)
Lemma calculateSegmentCoverage_stores calc segment filters searchRadius :
  let out := calculateSegmentCoverage toStr calc segment filters searchRadius in
  cache (snd out) !! getCacheKey toStr segment filters = Some (fst out) ∧
  spatialIndex (snd out) = spatialIndex calc ∧
  points (snd out) = points calc.
Proof.
  cbv zeta.
  destruct (cache calc !! getCacheKey toStr segment filters) as [c|] eqn:E.
  - by rewrite (calculateSegmentCoverage_hit _ _ _ _ _ E).
  - rewrite (calculateSegmentCoverage_miss _ _ _ _ E). simpl.
    by rewrite lookup_insert_eq.
Qed.

Lemma getCacheKey_coords segment1 segment2 filters :
  map coords segment1 = map coords segment2 →
  getCacheKey toStr segment1 filters = getCacheKey toStr segment2 filters.
Proof.
  intros H. unfold getCacheKey; cbv zeta. do 2 f_equal.
  change (fun p => pairKey toStr (lat p) (lng p))
    with (fun p => (fun c : R * R => pairKey toStr (fst c) (snd c)) (coords p)).
  rewrite <- !(map_map coords (fun c : R * R => pairKey toStr (fst c) (snd c))).
  by rewrite H.
Qed.

(** C6: a point of the indexed array is among the candidates of every segment
    that holds a route point with the point's coordinates; the key built for
    [i = 0], [j = 0] at query time is the key of the cell the point was put in
    when the index was built, and that cell's bucket holds the point. *)
Theorem query_includes_own_point pts i p segment q searchRadius :
  pts !! i = Some p → In q segment →
  lat q = snd (coordinates p) → lng q = fst (coordinates p) →
  In (i, p) (collectNearbyPoints toStr (newCoverageCalculator toStr pts)
                                 segment searchRadius) ∧
  getNearbyGridKeys toStr (lat q) (lng q) searchRadius !! 4 =
    Some (cellOf toStr (i, p)) ∧
  ∃ bucket, spatialIndex (newCoverageCalculator toStr pts) !! cellOf toStr (i, p)
              = Some bucket ∧ In (i, p) bucket.
Proof.
  intros Hp Hq Hlat Hlng. split; [|split].
  - by apply (collectNearbyPoints_self toStr _ pts i p segment q).
  - rewrite getNearbyGridKeys_centre. unfold cellOf; cbn [fst snd].
    by rewrite Hlat, Hlng.
  - by apply buildSpatialIndex_member.
Qed.

(** C7: a second call with the same arguments returns what the first call
    returned and leaves the calculator as the first call left it; it is served
    from the cache, which holds the first call's result, and on a miss that
    result is the freshly computed segment. *)
Theorem calculateSegmentCoverage_idempotent calc segment filters searchRadius :
  let first := calculateSegmentCoverage toStr calc segment filters searchRadius in
  let second :=
    calculateSegmentCoverage toStr (snd first) segment filters searchRadius in
  fst second = fst first ∧
  snd second = snd first ∧
  cache (snd first) !! getCacheKey toStr segment filters = Some (fst first) ∧
  (cache calc !! getCacheKey toStr segment filters = None →
   fst first = computeSegment toStr calc segment filters searchRadius).
Proof.
  cbv zeta.
  pose proof (calculateSegmentCoverage_stores calc segment filters searchRadius)
    as (Hstored & _ & _). cbv zeta in Hstored.
  rewrite (calculateSegmentCoverage_hit _ _ _ _ _ Hstored).
  repeat split; [done|].
  intros Hmiss. by rewrite (calculateSegmentCoverage_miss _ _ _ _ Hmiss).
Qed.

(** C8, as the code has it: for a fixed calculator, segment and radius, making
    filter lists wider never lowers the count of qualifying points, provided
    no empty list (which filters nothing) is made non-empty. *)
Theorem widening_keeps_qualifying calc segment f f' searchRadius :
  widenedFilters f f' →
  totalPoints (tally toStr calc segment f searchRadius) ≤
  totalPoints (tally toStr calc segment f' searchRadius).
Proof.
  intros Hw. rewrite !totalPoints_tally. unfold qualifyingPoints.
  apply filter_length_le. intros pr. unfold qualifies.
  rewrite !andb_true_iff. intros [Hpass Hnear].
  split; [by apply (passesFilters_widened f f') | done].
Qed.

(** C5, as the code has it: when the call is not served from the cache, the
    score is the mean weight of the candidates that pass both tests, 0 when
    none passes, and lies in [[0, 1]] (statuses that name a member of
    Object.prototype set aside). *)
Theorem coverage_is_mean_weight calc segment filters searchRadius :
  cache calc !! getCacheKey toStr segment filters = None →
  Forall (fun pr => ¬ In (statusOf pr) Object_prototype_keys)
         (qualifyingPoints toStr calc segment filters searchRadius) →
  let passing :=
    map statusOf (qualifyingPoints toStr calc segment filters searchRadius) in
  coverage (fst (calculateSegmentCoverage toStr calc segment filters searchRadius))
    = Num (meanWeight passing) ∧
  (passing = [] →
   coverage (fst (calculateSegmentCoverage toStr calc segment filters searchRadius))
     = Num 0%R) ∧
  (0 <= meanWeight passing <= 1)%R.
Proof.
  intros Hmiss Hproto; cbv zeta.
  rewrite (calculateSegmentCoverage_miss _ _ _ _ Hmiss). simpl.
  assert (Hcov :
    (if Nat.ltb 0 (totalPoints (tally toStr calc segment filters searchRadius))
     then divide (coverageScore (tally toStr calc segment filters searchRadius))
                 (totalPoints (tally toStr calc segment filters searchRadius))
     else Num 0%R) =
    Num (meanWeight (map statusOf
           (qualifyingPoints toStr calc segment filters searchRadius)))).
  { rewrite totalPoints_tally, tally_qualifying.
    rewrite (coverageScore_fold_countPoint _ initialTally 0%R Hproto eq_refl).
    destruct (qualifyingPoints toStr calc segment filters searchRadius)
      as [|pr l]; [done|].
    set (sts := map statusOf (pr :: l)).
    replace (length (pr :: l)) with (length sts) by apply length_map.
    assert (Hmean : meanWeight sts =
                    (Rsum (map specWeight sts) / INR (length sts))%R) by reflexivity.
    rewrite Hmean.
    destruct (length sts) eqn:En; [done|].
    cbn [Nat.ltb Nat.leb divide lift1]. f_equal. lra. }
  split; [done | split; [|apply meanWeight_bounds]].
  intros Hnone. rewrite Hcov, Hnone. done.
Qed.

End SegmentFacts.

(** ** Worked examples *)

Section ExampleFacts.

Variable toStr : R → string.

(** Every coordinate pair in [[0, 0.1)] x [[0, 0.1)] lies in the cell of the
    origin. *)
Lemma getGridKey_origin_cell x y :
  (0 <= x < 0.1)%R → (0 <= y < 0.1)%R →
  getGridKey toStr x y = getGridKey toStr 0 0.
Proof.
  intros Hx Hy. unfold getGridKey, gridSize; cbv zeta.
  assert (Hf : ∀ z, (0 <= z < 0.1)%R → Math_floor (z / 0.1) = 0%R).
  { intros z Hz. apply Math_floor_unit. split; [apply Rmult_le_pos; lra|].
    apply Rmult_lt_reg_r with (r := 0.1%R); [lra|].
    unfold Rdiv. rewrite Rmult_assoc, Rinv_l by lra. lra. }
  rewrite (Hf x Hx), (Hf y Hy), (Hf 0%R) by lra. done.
Qed.

(** One indexed point and one route point in its cell: the scoring loop runs
    once, on that point. *)
Lemma tally_single calc p q filters searchRadius :
  spatialIndex calc = buildSpatialIndex toStr [p] →
  getGridKey toStr (lat q) (lng q) =
    getGridKey toStr (snd (coordinates p)) (fst (coordinates p)) →
  tally toStr calc [q] filters searchRadius =
  processPoint [q] filters searchRadius initialTally (0, p).
Proof.
  intros Hidx Hkey. unfold tally.
  by rewrite (collectNearbyPoints_single toStr calc p q searchRadius Hidx Hkey).
Qed.

Lemma qualifyingPoints_single calc p q filters searchRadius :
  spatialIndex calc = buildSpatialIndex toStr [p] →
  getGridKey toStr (lat q) (lng q) =
    getGridKey toStr (snd (coordinates p)) (fst (coordinates p)) →
  qualifyingPoints toStr calc [q] filters searchRadius =
  if qualifies [q] filters searchRadius (0, p) then [(0, p)] else [].
Proof.
  intros Hidx Hkey. unfold qualifyingPoints.
  by rewrite (collectNearbyPoints_single toStr calc p q searchRadius Hidx Hkey).
Qed.

Lemma isNearby_origin_here st searchRadius :
  (0 <= searchRadius)%R → isNearby [origin] searchRadius (pointAt st 0 0) = true.
Proof.
  intros Hr. unfold isNearby. simpl.
  rewrite haversineDistance_same. by rewrite Rleb_true.
Qed.

Lemma isNearby_origin_556m st :
  isNearby [origin] DEFAULT_SEARCH_RADIUS (pointAt st 0.005 0) = false ∧
  isNearby [origin] 1 (pointAt st 0.005 0) = true.
Proof.
  pose proof haversineDistance_556m as [Hlo Hhi].
  unfold isNearby, DEFAULT_SEARCH_RADIUS. simpl. split.
  - rewrite Rleb_false; [done | lra].
  - rewrite Rleb_true; [done | lra].
Qed.

End ExampleFacts.

(** The first call on a fresh calculator with one indexed point [p] and the
    one-point route [q] in the cell of [p]: a cache miss whose scoring loop
    runs on [p] alone. *)
Ltac first_call p q :=
  rewrite calculateSegmentCoverage_miss by apply lookup_empty;
  cbn [fst]; unfold computeSegment; cbv zeta;
  rewrite (tally_single integerNumeral _ p q) by
    (try reflexivity; symmetry; apply getGridKey_origin_cell; simpl; lra);
  rewrite processPoint_qualifies; unfold qualifies; cbn [snd].

(** The first call for the point 0.005 degree east of the route point, at the
    default radius: nothing is counted. *)
Lemma segment_556m_default_radius :
  fst (calculateSegmentCoverage integerNumeral
         (newCoverageCalculator integerNumeral [pointAt "5G" 0.005 0])
         [origin] noFilters DEFAULT_SEARCH_RADIUS) =
  {| path := [origin]; coverage := Num 0%R;
     coverageDetails := [("5G", Num 0); ("4G", Num 0); ("3G", Num 0); ("other", Num 0)] |}.
Proof.
  first_call (pointAt "5G" 0.005 0) origin.
  rewrite (proj1 (isNearby_origin_556m "5G")). reflexivity.
Qed.

(** C1 on a concrete input: a 5G point 0.005 degree east of a route point on
    the equator is about 556 m away, inside the kilometre the default radius
    is documented to be; the code compares that distance in kilometres with
    0.01 and counts nothing. *)
Lemma point_556m_away_not_counted :
  (0.5 < haversineDistance 0 0.005 0 0 < 1)%R ∧
  qualifies [origin] noFilters DEFAULT_SEARCH_RADIUS (0, pointAt "5G" 0.005 0) = false ∧
  fst (calculateSegmentCoverage integerNumeral
         (newCoverageCalculator integerNumeral [pointAt "5G" 0.005 0])
         [origin] noFilters DEFAULT_SEARCH_RADIUS) =
  {| path := [origin]; coverage := Num 0%R;
     coverageDetails := [("5G", Num 0); ("4G", Num 0); ("3G", Num 0); ("other", Num 0)] |}.
Proof.
  split; [apply haversineDistance_556m | split; [|apply segment_556m_default_radius]].
  unfold qualifies. cbn [snd]. by rewrite (proj1 (isNearby_origin_556m "5G")).
Qed.

(** C2 on a concrete input: a point with the status of the repository's test
    data, on a route point.  It passes both tests; the breakdown gets a fifth
    key whose count is NaN, "other" stays 0, and the score is the weight of
    "other". *)
Lemma unknown_status_breakdown :
  let result :=
    fst (calculateSegmentCoverage integerNumeral
           (newCoverageCalculator integerNumeral [pointAt "Test Status" 0 0])
           [origin] noFilters DEFAULT_SEARCH_RADIUS) in
  coverageDetails result =
    [("5G", Num 0); ("4G", Num 0); ("3G", Num 0); ("other", Num 0);
     ("Test Status", NaN)] ∧
  coverage result = Num 0.1%R ∧
  existsb gt0 (Object_values (coverageDetails result)) = false.
Proof.
  cbv zeta.
  first_call (pointAt "Test Status" 0 0) origin.
  rewrite isNearby_origin_here by (unfold DEFAULT_SEARCH_RADIUS; lra).
  cbn [passesFilters noFilters pointAt properties countries phoneTypes operators
       statuses rejectsOptional rejectsRequired length Nat.ltb Nat.leb andb
       coverageDetails coverage countPoint details totalPoints coverageScore
       initialTally snd status].
  split; [reflexivity | split; [|reflexivity]].
  unfold weightOf, get. simpl. f_equal. lra.
Qed.

(** C5 as written fails: the cache is keyed without the radius.  After a call
    at the default radius, which counts nothing for the point 556 m away, a
    call at radius 1 returns the cached score 0, while the mean weight of the
    points within radius 1 is 1. *)
Lemma cached_score_ignores_radius :
  let calc0 := newCoverageCalculator integerNumeral [pointAt "5G" 0.005 0] in
  let calc1 :=
    snd (calculateSegmentCoverage integerNumeral calc0 [origin] noFilters
                                  DEFAULT_SEARCH_RADIUS) in
  coverage (fst (calculateSegmentCoverage integerNumeral calc1 [origin] noFilters 1))
    = Num 0%R ∧
  meanWeight (map statusOf (qualifyingPoints integerNumeral calc1 [origin] noFilters 1))
    = 1%R.
Proof.
  cbv zeta.
  set (calc0 := newCoverageCalculator integerNumeral [pointAt "5G" 0.005 0]).
  pose proof (calculateSegmentCoverage_stores integerNumeral calc0 [origin] noFilters
                DEFAULT_SEARCH_RADIUS) as (Hstored & Hidx & _).
  cbv zeta in Hstored, Hidx.
  pose proof segment_556m_default_radius as Hfirst. fold calc0 in Hfirst.
  split.
  - rewrite (calculateSegmentCoverage_hit _ _ _ _ _ _ Hstored).
    cbn [fst]. by rewrite Hfirst.
  - rewrite (qualifyingPoints_single integerNumeral _ (pointAt "5G" 0.005 0) origin).
    + unfold qualifies. cbn [snd]. rewrite (proj2 (isNearby_origin_556m "5G")).
      simpl. unfold specWeight. simpl. lra.
    + by rewrite Hidx.
    + symmetry. apply getGridKey_origin_cell; simpl; lra.
Qed.

(** C8 as written fails: with no filter a point of operator B on the route
    qualifies; after "A" is added to the empty operator list it does not. *)
Lemma widening_empty_list_drops_point :
  let calc := newCoverageCalculator integerNumeral [pointAt "5G" 0 0] in
  totalPoints (tally integerNumeral calc [origin] noFilters DEFAULT_SEARCH_RADIUS) = 1 ∧
  totalPoints (tally integerNumeral calc [origin] onlyOperatorA DEFAULT_SEARCH_RADIUS) = 0.
Proof.
  cbv zeta.
  rewrite !(tally_single integerNumeral _ (pointAt "5G" 0 0) origin) by reflexivity.
  rewrite !processPoint_qualifies. unfold qualifies. cbn [snd].
  rewrite isNearby_origin_here by (unfold DEFAULT_SEARCH_RADIUS; lra).
  split; reflexivity.
Qed.

(** [widening_keeps_qualifying] at the operator list ["A"] made ["A"; "B"]. *)
Lemma widening_keeps_qualifying_witness :
  widenedFilters onlyOperatorA operatorsAB ∧
  totalPoints (tally integerNumeral (newCoverageCalculator integerNumeral [pointAt "5G" 0 0])
                     [origin] onlyOperatorA DEFAULT_SEARCH_RADIUS) ≤
  totalPoints (tally integerNumeral (newCoverageCalculator integerNumeral [pointAt "5G" 0 0])
                     [origin] operatorsAB DEFAULT_SEARCH_RADIUS).
Proof.
  assert (Hw : widenedFilters onlyOperatorA operatorsAB).
  { unfold widenedFilters, widened; simpl.
    repeat split; try (intros ? H; exact H); try done.
    intros x [<- | []]. by left. }
  split; [exact Hw|].
  exact (widening_keeps_qualifying integerNumeral _ [origin] _ _ _ Hw).
Defined.

(** [coverage_is_mean_weight] on a fresh calculator with one 5G point on the
    route. *)
Lemma coverage_is_mean_weight_witness :
  let calc := newCoverageCalculator integerNumeral [pointAt "5G" 0 0] in
  let passing :=
    map statusOf (qualifyingPoints integerNumeral calc [origin] noFilters
                                   DEFAULT_SEARCH_RADIUS) in
  coverage (fst (calculateSegmentCoverage integerNumeral calc [origin] noFilters
                                          DEFAULT_SEARCH_RADIUS))
    = Num (meanWeight passing) ∧
  (passing = [] →
   coverage (fst (calculateSegmentCoverage integerNumeral calc [origin] noFilters
                                           DEFAULT_SEARCH_RADIUS))
     = Num 0%R) ∧
  (0 <= meanWeight passing <= 1)%R.
Proof.
  apply (coverage_is_mean_weight integerNumeral).
  - apply lookup_empty.
  - rewrite (qualifyingPoints_single integerNumeral _ (pointAt "5G" 0 0) origin)
      by reflexivity.
    destruct (qualifies _ _ _ _); repeat constructor.
    unfold statusOf; simpl. intuition discriminate.
Defined.

(** [query_includes_own_point] for the one point of a one-point array. *)
Lemma query_includes_own_point_witness :
  In (0, pointAt "5G" 0 0)
     (collectNearbyPoints integerNumeral
        (newCoverageCalculator integerNumeral [pointAt "5G" 0 0])
        [origin] DEFAULT_SEARCH_RADIUS) ∧
  getNearbyGridKeys integerNumeral (lat origin) (lng origin) DEFAULT_SEARCH_RADIUS !! 4 =
    Some (cellOf integerNumeral (0, pointAt "5G" 0 0)) ∧
  ∃ bucket,
    spatialIndex (newCoverageCalculator integerNumeral [pointAt "5G" 0 0])
      !! cellOf integerNumeral (0, pointAt "5G" 0 0) = Some bucket ∧
    In (0, pointAt "5G" 0 0) bucket.
Proof.
  apply (query_includes_own_point integerNumeral [pointAt "5G" 0 0] 0
           (pointAt "5G" 0 0) [origin] origin DEFAULT_SEARCH_RADIUS).
  - reflexivity.
  - simpl. left. reflexivity.
  - reflexivity.
  - reflexivity.
Defined.

(** ** analyzeRouteCoverage *)

Lemma chunksFrom_concat {A} fuel (l : list A) :
  length l ≤ fuel → concat (chunksFrom fuel l) = l.
Proof.
  revert l. induction fuel as [|fuel IH]; intros l Hlen.
  - destruct l; [done | simpl in Hlen; lia].
  - destruct l as [|x l]; [done|].
    cbn [chunksFrom concat]. rewrite IH.
    + apply firstn_skipn.
    + rewrite length_skipn. unfold SEGMENT_LENGTH. cbn [length] in *. lia.
Qed.

Lemma chunksFrom_lengths {A} fuel (l : list A) :
  Forall (fun c => 0 < length c ≤ SEGMENT_LENGTH) (chunksFrom fuel l).
Proof.
  revert l. induction fuel as [|fuel IH]; intros l; [constructor|].
  destruct l as [|x l]; [constructor|].
  cbn [chunksFrom]. constructor; [|apply IH].
  rewrite length_firstn. unfold SEGMENT_LENGTH. cbn [length]. lia.
Qed.

(** A route of 12 points is cut into chunks of 5, 5 and 2 points. *)
Lemma chunks_12 :
  map length (chunks (seq 0 12)) = [5; 5; 2].
Proof. reflexivity. Qed.

Lemma lift2_Rplus_assoc (a x y : number R) :
  lift2 Rplus (lift2 Rplus a x) y = lift2 Rplus a (lift2 Rplus x y).
Proof. destruct a, x, y; simpl; try done. f_equal. lra. Qed.

Lemma lift2_Rplus_0_l (x : number R) : lift2 Rplus (Num 0%R) x = x.
Proof. destruct x; simpl; [f_equal; lra | done]. Qed.

Lemma lift2_Rplus_0_r (x : number R) : lift2 Rplus x (Num 0%R) = x.
Proof. destruct x; simpl; [f_equal; lra | done]. Qed.

Lemma reduce_coverage segments a :
  fold_left (fun acc seg => lift2 Rplus acc (coverage seg)) segments a =
  lift2 Rplus a (fold_right (lift2 Rplus) (Num 0%R) (map coverage segments)).
Proof.
  revert a. induction segments as [|s l IH]; intros a; simpl.
  - by rewrite lift2_Rplus_0_r.
  - by rewrite IH, lift2_Rplus_assoc.
Qed.

Lemma lift2_add_assoc (a x y : number nat) :
  lift2 Nat.add (lift2 Nat.add a x) y = lift2 Nat.add a (lift2 Nat.add x y).
Proof. destruct a, x, y; simpl; try done. f_equal. lia. Qed.

Lemma lift2_add_0_r (x : number nat) : lift2 Nat.add x (Num 0) = x.
Proof. destruct x; simpl; [f_equal; lia | done]. Qed.

Lemma lift2_add_0_l (x : number nat) : lift2 Nat.add (Num 0) x = x.
Proof. by destruct x. Qed.

Lemma reduce_counts (l : list (number nat)) a :
  fold_left (lift2 Nat.add) l a =
  lift2 Nat.add a (fold_right (lift2 Nat.add) (Num 0) l).
Proof.
  revert a. induction l as [|x l IH]; intros a; simpl.
  - by rewrite lift2_add_0_r.
  - by rewrite IH, lift2_add_assoc.
Qed.

(** The test that keeps a segment: some count is a number other than 0. *)
Lemma existsb_gt0_positive (o : object (number nat)) :
  existsb gt0 (Object_values o) = true ↔ someCountPositive o.
Proof.
  unfold Object_values, someCountPositive. rewrite existsb_exists. split.
  - intros (v & Hv & Hpos). apply in_map_iff in Hv as ([k v'] & <- & Hin).
    destruct v' as [n|]; simpl in Hpos; [|done].
    exists k, n. split; [done|]. destruct n; [done | lia].
  - intros (k & n & Hin & Hn). exists (Num n). split.
    + apply in_map_iff. by exists (k, Num n).
    + destruct n; [lia | reflexivity].
Qed.

Section RouteFacts.

Variable toStr : R → string.

Lemma slice_chunk {A} (l : list A) i :
  slice l i (i + SEGMENT_LENGTH) = firstn SEGMENT_LENGTH (skipn i l).
Proof. unfold slice. f_equal. lia. Qed.

(** The loop visits the chunks of the rest of the route in order and pushes
    the segments that have a count above 0. *)
Lemma analyzeLoop_chunks fuel path_ filters i calc segments :
  analyzeLoop toStr fuel path_ filters i calc segments =
  (segments ++
     List.filter (fun r => existsb gt0 (Object_values (coverageDetails r)))
                 (fst (visitChunks toStr calc (chunksFrom fuel (skipn i path_)) filters)),
   snd (visitChunks toStr calc (chunksFrom fuel (skipn i path_)) filters)).
Proof.
  revert i calc segments.
  induction fuel as [|fuel IH]; intros i calc segments.
  - simpl. by rewrite app_nil_r.
  - cbn [analyzeLoop]. destruct (Nat.ltb i (length path_)) eqn:Hi.
    + apply Nat.ltb_lt in Hi.
      destruct (skipn i path_) as [|x rest] eqn:Hskip.
      { apply (f_equal length) in Hskip. rewrite length_skipn in Hskip.
        simpl in Hskip. lia. }
      cbn [chunksFrom visitChunks]. rewrite slice_chunk, Hskip.
      destruct (calculateSegmentCoverage toStr calc
                  (firstn SEGMENT_LENGTH (x :: rest)) filters DEFAULT_SEARCH_RADIUS)
        as [result calc'] eqn:Hcall.
      rewrite IH.
      replace (skipn (i + SEGMENT_LENGTH) path_) with (skipn SEGMENT_LENGTH (x :: rest)).
      2:{ rewrite <- Hskip, skipn_skipn. f_equal. lia. }
      destruct (visitChunks toStr calc'
                  (chunksFrom fuel (skipn SEGMENT_LENGTH (x :: rest))) filters)
        as [rs calc''] eqn:Hvisit.
      cbn [fst snd List.filter].
      destruct (existsb gt0 (Object_values (coverageDetails result))).
      * by rewrite <- app_assoc.
      * done.
    + apply Nat.ltb_ge in Hi. rewrite skipn_all2 by done.
      simpl. by rewrite app_nil_r.
Qed.

(** What the code keeps: the returned segments are the results of the chunks,
    in route order, for which [count > 0] holds of some count (a NaN count is
    not above zero); the chunks cover the route in pieces of at most five
    points; the statistics count the kept segments, average their scores (NaN
    when none is kept) and list, per kept segment, its score, its colour and
    the sum of the counts of its breakdown. *)
Lemma analyzeRouteCoverage_kept_segments calc path_ filters :
  let out := analyzeRouteCoverage toStr calc path_ filters in
  let visited := visitChunks toStr calc (chunks path_) filters in
  let keep := fun r => existsb gt0 (Object_values (coverageDetails r)) in
  let segments := fst (fst out) in
  let stats := snd (fst out) in
  segments = List.filter keep (fst visited) ∧
  (∀ r, keep r = true ↔ someCountPositive (coverageDetails r)) ∧
  snd out = snd visited ∧
  concat (chunks path_) = path_ ∧
  Forall (fun c => 0 < length c ≤ SEGMENT_LENGTH) (chunks path_) ∧
  totalSegments stats = length segments ∧
  averageCoverage stats = meanScore (map coverage segments) ∧
  (segments = [] → averageCoverage stats = NaN) ∧
  coverageDistribution stats =
    map (fun seg => {| entryCoverage := coverage seg;
                       color := getCoverageColor toStr (coverage seg);
                       nearbyPoints := sumCounts (coverageDetails seg) |})
        segments.
Proof.
  cbv zeta. unfold analyzeRouteCoverage.
  rewrite analyzeLoop_chunks. change (skipn 0 path_) with path_.
  fold (chunks path_). cbv iota beta. cbn [app fst snd].
  set (segments := List.filter _ (fst (visitChunks toStr calc (chunks path_) filters))).
  assert (Havg : averageCoverage (statistics toStr segments) =
                 meanScore (map coverage segments)).
  { unfold statistics; cbn [averageCoverage]. rewrite reduce_coverage.
    rewrite lift2_Rplus_0_l. unfold meanScore.
    destruct segments as [|s l]; [done|].
    cbn [map length divide]. by rewrite length_map. }
  split; [done|]. split; [intros r; apply existsb_gt0_positive|].
  split; [done|]. split; [by apply chunksFrom_concat|].
  split; [apply chunksFrom_lengths|]. split; [done|]. split; [done|].
  split; [intros Hnone; by rewrite Havg, Hnone|].
  unfold statistics; cbn [coverageDistribution].
  apply map_ext. intros seg. f_equal.
  unfold sumCounts, Object_values. by rewrite reduce_counts, lift2_add_0_l.
Qed.

End RouteFacts.

(** C4 on a concrete input: the one point of the data has the status of the
    repository's test data and lies on the one route point.  The point passes
    both tests and the breakdown of the segment is not all zero (its fifth
    count is NaN, the sum of its counts is NaN); yet [count > 0] holds of no
    count, so the segment is dropped: no segment is returned and the
    statistics are those of an empty route. *)
Theorem counted_point_segment_dropped :
  let p := pointAt "Test Status" 0 0 in
  let calc := newCoverageCalculator integerNumeral [p] in
  let result :=
    fst (calculateSegmentCoverage integerNumeral calc [origin] noFilters
                                  DEFAULT_SEARCH_RADIUS) in
  qualifyingPoints integerNumeral calc [origin] noFilters DEFAULT_SEARCH_RADIUS =
    [(0, p)] ∧
  coverageDetails result =
    [("5G", Num 0); ("4G", Num 0); ("3G", Num 0); ("other", Num 0);
     ("Test Status", NaN)] ∧
  sumCounts (coverageDetails result) = NaN ∧
  fst (analyzeRouteCoverage integerNumeral calc [origin] noFilters) =
    ([], {| totalSegments := 0; averageCoverage := NaN; coverageDistribution := [] |}).
Proof.
  cbv zeta.
  assert (Hq : qualifies [origin] noFilters DEFAULT_SEARCH_RADIUS
                 (0, pointAt "Test Status" 0 0) = true).
  { unfold qualifies. cbn [snd].
    by rewrite isNearby_origin_here by (unfold DEFAULT_SEARCH_RADIUS; lra). }
  assert (Hdetails :
    coverageDetails
      (computeSegment integerNumeral
         (newCoverageCalculator integerNumeral [pointAt "Test Status" 0 0])
         [origin] noFilters DEFAULT_SEARCH_RADIUS) =
    [("5G", Num 0); ("4G", Num 0); ("3G", Num 0); ("other", Num 0);
     ("Test Status", NaN)]).
  { unfold computeSegment; cbv zeta. cbn [coverageDetails].
    rewrite (tally_single integerNumeral _ (pointAt "Test Status" 0 0) origin)
      by reflexivity.
    rewrite processPoint_qualifies, Hq. reflexivity. }
  split; [|split; [|split]].
  - rewrite (qualifyingPoints_single integerNumeral _ (pointAt "Test Status" 0 0) origin)
      by reflexivity.
    by rewrite Hq.
  - rewrite calculateSegmentCoverage_miss by apply lookup_empty. exact Hdetails.
  - rewrite calculateSegmentCoverage_miss by apply lookup_empty. cbn [fst].
    rewrite Hdetails. reflexivity.
  - unfold analyzeRouteCoverage.
    rewrite analyzeLoop_chunks. cbn [length skipn chunksFrom firstn visitChunks].
    rewrite calculateSegmentCoverage_miss by apply lookup_empty.
    cbn [fst snd List.filter app].
    change (take SEGMENT_LENGTH [origin]) with [origin].
    rewrite Hdetails. reflexivity.
Qed.

(** ** The fingerprint *)

Local Arguments String.append !_ _ / : simpl nomatch.
Local Arguments quote : simpl never.

Lemma append_assoc (a b c : string) : (a +:+ b) +:+ c = a +:+ (b +:+ c).
Proof. induction a as [|x a IH]; simpl; [done | by rewrite IH]. Qed.


Lemma allChars_impl (P Q : ascii → bool) s :
  (∀ c, P c = true → Q c = true) → allChars P s = true → allChars Q s = true.
Proof.
  intros H. induction s as [|c s IH]; simpl; [done|].
  rewrite !andb_true_iff. intros [Hc Hs]. auto.
Qed.

Lemma allChars_append P a b :
  allChars P (a +:+ b) = allChars P a && allChars P b.
Proof. induction a as [|c a IH]; simpl; [done | by rewrite IH, andb_assoc]. Qed.

(** A string is cut in one way only at the first occurrence of a
    character. *)
Lemma split_at_first c a a' b b' :
  freeOf c a = true → freeOf c a' = true →
  a +:+ String c b = a' +:+ String c b' → a = a' ∧ b = b'.
Proof.
  unfold freeOf. revert a'. induction a as [|x a IH]; intros [|x' a']; simpl.
  - intros _ _ [= ->]. done.
  - intros _ H [= -> _]. rewrite Ascii.eqb_refl in H. done.
  - intros H _ [= -> _]. rewrite Ascii.eqb_refl in H. done.
  - rewrite !andb_true_iff. intros [_ Ha] [_ Ha'] [= -> Heq].
    destruct (IH a' Ha Ha' Heq) as [-> ->]. done.
Qed.

Lemma numberChar_freeOf c s :
  numberChar c = false → allChars numberChar s = true → freeOf c s = true.
Proof.
  intros Hc. apply allChars_impl. intros x Hx.
  destruct (Ascii.eqb_spec x c) as [-> | _]; [congruence | done].
Qed.


(** *** JSON strings and arrays *)














(** *** The route part *)

Section FingerprintFacts.

Variable toStr : R → string.
Variable D : R → Prop.
Hypothesis numerals : numeralsOn toStr D.

Lemma pairKey_append a b t :
  pairKey toStr a b +:+ String "|" t =
  toStr a +:+ String "," (toStr b +:+ String "|" t).
Proof. unfold pairKey. rewrite append_assoc. simpl. done. Qed.

Lemma pairKey_inj a b a' b' t t' :
  D a → D b → D a' → D b' →
  pairKey toStr a b +:+ String "|" t = pairKey toStr a' b' +:+ String "|" t' →
  a = a' ∧ b = b' ∧ t = t'.
Proof using numerals.
  destruct numerals as [Hinj Hchars].
  intros Ha Hb Ha' Hb'. rewrite !pairKey_append. intros H.
  apply split_at_first in H as [Hlat H];
    [| apply numberChar_freeOf; [reflexivity | by apply Hchars] ..].
  apply split_at_first in H as [Hlng H];
    [| apply numberChar_freeOf; [reflexivity | by apply Hchars] ..].
  split; [by apply Hinj | split; [by apply Hinj | done]].
Qed.





(** *** The cache *)

Lemma computeSegment_index calc calc' segment filters searchRadius :
  spatialIndex calc = spatialIndex calc' →
  computeSegment toStr calc segment filters searchRadius =
  computeSegment toStr calc' segment filters searchRadius.
Proof.
  intros H. unfold computeSegment, tally, collectNearbyPoints. by rewrite H.
Qed.

Lemma cacheSound_new pts : cacheSound toStr D (newCoverageCalculator toStr pts).
Proof. intros k r H. simpl in H. by rewrite lookup_empty in H. Qed.

Lemma cacheSound_call calc segment filters searchRadius :
  cacheSound toStr D calc → routeOn D segment →
  cacheSound toStr D
    (snd (calculateSegmentCoverage toStr calc segment filters searchRadius)).
Proof.
  intros Hsound Hroute.
  destruct (cache calc !! getCacheKey toStr segment filters) as [c|] eqn:E.
  - by rewrite (calculateSegmentCoverage_hit _ _ _ _ _ _ E).
  - rewrite (calculateSegmentCoverage_miss _ _ _ _ _ E). cbn [snd].
    set (calc' := {| points := points calc; spatialIndex := spatialIndex calc;
                     cache := _ |}).
    intros k r Hk. cbn [cache calc'] in Hk.
    destruct (decide (getCacheKey toStr segment filters = k)) as [<- | Hne].
    + rewrite lookup_insert_eq in Hk. injection Hk as <-.
      exists segment, filters, searchRadius.
      split; [done | split; [done|]]. by apply computeSegment_index.
    + rewrite lookup_insert_ne in Hk by done.
      destruct (Hsound k r Hk) as (s & f & rad & Hr & -> & ->).
      exists s, f, rad. split; [done | split; [done|]].
      by apply computeSegment_index.
Qed.

Lemma cacheSound_visitChunks calc cs filters :
  cacheSound toStr D calc → Forall (routeOn D) cs →
  cacheSound toStr D (snd (visitChunks toStr calc cs filters)).
Proof.
  intros Hsound Hcs. revert calc Hsound.
  induction Hcs as [|c cs Hc Hcs IH]; intros calc Hsound; [done|].
  cbn [visitChunks].
  pose proof (cacheSound_call calc c filters DEFAULT_SEARCH_RADIUS Hsound Hc) as H1.
  destruct (calculateSegmentCoverage toStr calc c filters DEFAULT_SEARCH_RADIUS)
    as [r calc1].
  specialize (IH calc1 H1).
  destruct (visitChunks toStr calc1 cs filters) as [rs calc2]. done.
Qed.


End FingerprintFacts.

(** *** The numerals of integers *)

Lemma Int_part_IZR z : Int_part (IZR z) = z.
Proof. symmetry. apply Int_part_spec. lra. Qed.

Lemma string_of_uint_chars d :
  allChars numberChar (NilEmpty.string_of_uint d) = true.
Proof. induction d; simpl; auto. Qed.

Lemma integerNumeral_chars x : allChars numberChar (integerNumeral x) = true.
Proof.
  unfold integerNumeral. destruct (Z.to_int (Int_part x)) as [d | d]; simpl.
  - apply string_of_uint_chars.
  - apply string_of_uint_chars.
Qed.

Lemma integerNumeral_inj x y :
  integral x → integral y → integerNumeral x = integerNumeral y → x = y.
Proof.
  intros [a ->] [b ->]. unfold integerNumeral. rewrite !Int_part_IZR. intros H.
  apply (f_equal NilEmpty.int_of_string) in H. rewrite !NilEmpty.isi in H.
  injection H as H. apply (f_equal Z.of_int) in H.
  rewrite !DecimalZ.of_to in H. by subst.
Qed.



(** ** Scenarios of the specification *)

(** A single 5G point on a route point, empty filters, default radius: the
    breakdown counts one 5G point and the score is 1. *)
Lemma scenario_single_5G (la lo : R) :
  fst (calculateSegmentCoverage integerNumeral
         (newCoverageCalculator integerNumeral [pointAt "5G" lo la])
         [{| ref := 0; lat := la; lng := lo |}] noFilters DEFAULT_SEARCH_RADIUS) =
  {| path := [{| ref := 0; lat := la; lng := lo |}];
     coverage := Num 1%R;
     coverageDetails := [("5G", Num 1); ("4G", Num 0); ("3G", Num 0); ("other", Num 0)] |}.
Proof.
  first_call (pointAt "5G" lo la) {| ref := 0; lat := la; lng := lo |}.
  unfold isNearby. cbn [pointAt coordinates existsb lat lng].
  rewrite haversineDistance_same, Rleb_true by (unfold DEFAULT_SEARCH_RADIUS; lra).
  cbn [passesFilters noFilters pointAt properties countries phoneTypes operators
       statuses rejectsOptional rejectsRequired length Nat.ltb Nat.leb andb orb
       coverageDetails coverage countPoint details totalPoints coverageScore
       initialTally snd status].
  f_equal. unfold weightOf, get. simpl.
  destruct (Req_EM_T 1 0); [lra|]. simpl. f_equal. lra.
Qed.

(** A point whose status names a member of Object.prototype: the weight
    lookup yields that member, the running score stops being a number and the
    score is NaN. *)
Lemma scenario_prototype_status :
  coverage
    (fst (calculateSegmentCoverage integerNumeral
            (newCoverageCalculator integerNumeral [pointAt "constructor" 0 0])
            [origin] noFilters DEFAULT_SEARCH_RADIUS)) = NaN.
Proof.
  first_call (pointAt "constructor" 0 0) origin.
  rewrite isNearby_origin_here by (unfold DEFAULT_SEARCH_RADIUS; lra).
  reflexivity.
Qed.

(** ** The cache and filter objects *)


Section ObjectFacts.

Variable toStr : R → string.

Lemma JSON_stringify_interface f :
  JSON_stringify_object {| created := interfaceOrder; lists := f |} = JSON_stringify f.
Proof.
  unfold JSON_stringify_object, JSON_stringify.
  cbn [created lists interfaceOrder map join member keyName].
  by rewrite !append_assoc.
Qed.

Lemma getCacheKeyOf_interface segment f :
  getCacheKeyOf toStr segment {| created := interfaceOrder; lists := f |} =
  getCacheKey toStr segment f.
Proof. unfold getCacheKeyOf, getCacheKey. by rewrite JSON_stringify_interface. Qed.

(** The calls of the other sections are the calls with a filter object in
    the order of the interface. *)
Lemma calculateSegmentCoverageOf_interface calc segment f searchRadius :
  calculateSegmentCoverageOf toStr calc segment
    {| created := interfaceOrder; lists := f |} searchRadius =
  calculateSegmentCoverage toStr calc segment f searchRadius.
Proof.
  unfold calculateSegmentCoverageOf, calculateSegmentCoverage; cbv zeta.
  by rewrite getCacheKeyOf_interface.
Qed.





End ObjectFacts.



(* ===================================================================== *)
(** * Further properties of the calculator *)
(* ===================================================================== *)

(** ** The spatial index *)

Section IndexContents.

Variable toStr : R → string.

Lemma fold_indexPoint_lookup l index k :
  fold_left (indexPoint toStr) l index !! k =
  match cellMembers toStr k l with
  | [] => index !! k
  | _ :: _ => Some (default [] (index !! k) ++ cellMembers toStr k l)
  end.
Proof.
  revert index. induction l as [|pr l IH]; intros index; [done|].
  cbn [fold_left]. rewrite IH. unfold cellMembers. cbn [List.filter].
  rewrite indexPoint_insert.
  destruct (String.eqb_spec (cellOf toStr pr) k) as [<- | Hne].
  - rewrite lookup_insert_eq.
    change (default [] (Some (default [] (index !! cellOf toStr pr) ++ [pr])))
      with (default [] (index !! cellOf toStr pr) ++ [pr]).
    destruct (List.filter _ l); [done | by rewrite <- app_assoc].
  - by rewrite lookup_insert_ne.
Qed.

(** X1: the index is the partition of the array by cell key.  The bucket of a
    key holds exactly the points whose cell has that key, each once, in array
    order; a key of no point has no bucket. *)
Theorem buildSpatialIndex_buckets pts k :
  buildSpatialIndex toStr pts !! k =
  match cellMembers toStr k (imap (fun i p => (i, p)) pts) with
  | [] => None
  | _ :: _ => Some (cellMembers toStr k (imap (fun i p => (i, p)) pts))
  end.
Proof.
  unfold buildSpatialIndex. rewrite fold_indexPoint_lookup, lookup_empty.
  by destruct (cellMembers toStr k _).
Qed.

Lemma bucket_member pts k b x :
  buildSpatialIndex toStr pts !! k = Some b → In x b →
  cellOf toStr x = k ∧ pts !! fst x = Some (snd x).
Proof.
  unfold buildSpatialIndex. rewrite fold_indexPoint_lookup, lookup_empty.
  intros Hb Hx.
  assert (Hin : In x (cellMembers toStr k (imap (fun i p => (i, p)) pts))).
  { destruct (cellMembers toStr k _); [done|]. injection Hb as <-. done. }
  apply filter_In in Hin as [Hin Hk]. apply String.eqb_eq in Hk.
  split; [done|]. destruct x as [i p]. by apply imap_pair_In in Hin.
Qed.

Lemma visitedBuckets_member calc pts segment searchRadius x :
  spatialIndex calc = buildSpatialIndex toStr pts →
  In x (visitedBuckets toStr calc segment searchRadius) →
  pts !! fst x = Some (snd x) ∧
  ∃ q, In q segment ∧
       In (cellOf toStr x) (getNearbyGridKeys toStr (lat q) (lng q) searchRadius).
Proof.
  intros Hidx Hx. unfold visitedBuckets in Hx.
  apply in_flat_map in Hx as (k & Hk & Hx). rewrite Hidx in Hx.
  destruct (buildSpatialIndex toStr pts !! k) as [b|] eqn:Hb; [|done].
  destruct (bucket_member _ _ _ _ Hb Hx) as [<- Hp].
  split; [done|]. apply in_flat_map in Hk as (q & Hq & Hk). eauto.
Qed.

(** X2: the candidates of a segment.  No point object is listed twice, however
    many route points of the segment see its cell; every candidate is a point
    of the indexed array, and the key of its cell is one of the nine keys
    built for some route point of the segment. *)
Theorem candidates_from_nine_cells pts segment searchRadius :
  let candidates :=
    collectNearbyPoints toStr (newCoverageCalculator toStr pts) segment searchRadius in
  NoDup (map fst candidates) ∧
  Forall (fun x =>
            pts !! fst x = Some (snd x) ∧
            ∃ q, In q segment ∧
                 In (cellOf toStr x)
                    (getNearbyGridKeys toStr (lat q) (lng q) searchRadius))
         candidates.
Proof.
  cbv zeta. split; [apply collectNearbyPoints_NoDup|].
  apply Forall_forall. intros x Hx. apply list_elem_of_In in Hx.
  rewrite collectNearbyPoints_flat in Hx.
  apply fold_Set_add_origin in Hx as [[] | Hx].
  by apply (visitedBuckets_member _ pts) in Hx.
Qed.

Lemma NoDup_bounded_length (l : list nat) n :
  NoDup l → (∀ i, In i l → i < n) → length l ≤ n.
Proof.
  intros Hnd Hlt. rewrite <- (length_seq n 0).
  apply NoDup_incl_length; [by apply NoDup_ListNoDup|].
  intros i Hi. apply in_seq. specialize (Hlt i Hi). lia.
Qed.

Lemma candidates_length calc pts segment searchRadius :
  spatialIndex calc = buildSpatialIndex toStr pts →
  length (collectNearbyPoints toStr calc segment searchRadius) ≤ length pts.
Proof.
  intros Hidx. rewrite <- (length_map fst).
  apply NoDup_bounded_length; [apply collectNearbyPoints_NoDup|].
  intros i Hi. apply in_map_iff in Hi as (x & <- & Hx).
  apply (collectNearbyPoints_origin toStr _ pts) in Hx; [|done].
  by apply lookup_lt_Some in Hx.
Qed.

(** X3: whatever the route, the filter and the radius, a segment never counts
    more qualifying points than the array holds: every point is counted at
    most once per segment. *)
Theorem qualifying_at_most_points pts segment filters searchRadius :
  totalPoints (tally toStr (newCoverageCalculator toStr pts) segment filters
                     searchRadius) ≤ length pts.
Proof.
  rewrite totalPoints_tally. unfold qualifyingPoints.
  etransitivity;
    [|by apply (candidates_length (newCoverageCalculator toStr pts) pts segment
                  searchRadius)].
  induction (collectNearbyPoints toStr _ segment searchRadius) as [|x l IH];
    simpl; [done|].
  destruct (qualifies segment filters searchRadius x); simpl; lia.
Qed.

End IndexContents.

(** ** The cache over calls and routes *)

Section CacheFacts.

Variable toStr : R → string.

(** X4: a call of [calculateSegmentCoverage] leaves the points and the index
    alone, keeps every cache entry as it is (nothing is overwritten or
    evicted), and touches no key but the fingerprint of its arguments. *)
Theorem calculateSegmentCoverage_frame calc segment filters searchRadius :
  let after := snd (calculateSegmentCoverage toStr calc segment filters searchRadius) in
  points after = points calc ∧
  spatialIndex after = spatialIndex calc ∧
  (∀ k r, cache calc !! k = Some r → cache after !! k = Some r) ∧
  (∀ k, k ≠ getCacheKey toStr segment filters →
        cache after !! k = cache calc !! k).
Proof.
  cbv zeta.
  destruct (cache calc !! getCacheKey toStr segment filters) as [c|] eqn:E.
  - rewrite (calculateSegmentCoverage_hit _ _ _ _ _ _ E). done.
  - rewrite (calculateSegmentCoverage_miss _ _ _ _ _ E). cbn [snd points spatialIndex cache].
    repeat split.
    + intros k r Hk. destruct (decide (getCacheKey toStr segment filters = k)) as [<- | Hne].
      * congruence.
      * by rewrite lookup_insert_ne.
    + intros k Hk. by rewrite lookup_insert_ne.
Qed.

Lemma call_keeps_cache calc segment filters searchRadius k r :
  cache calc !! k = Some r →
  cache (snd (calculateSegmentCoverage toStr calc segment filters searchRadius)) !! k
    = Some r.
Proof.
  intros Hk.
  destruct (cache calc !! getCacheKey toStr segment filters) as [c|] eqn:E.
  - by rewrite (calculateSegmentCoverage_hit _ _ _ _ _ _ E).
  - rewrite (calculateSegmentCoverage_miss _ _ _ _ _ E). cbn [snd cache].
    destruct (decide (getCacheKey toStr segment filters = k)) as [<- | Hne];
      [congruence | by rewrite lookup_insert_ne].
Qed.

Lemma visitChunks_cons calc c cs filters :
  visitChunks toStr calc (c :: cs) filters =
  (fst (calculateSegmentCoverage toStr calc c filters DEFAULT_SEARCH_RADIUS) ::
     fst (visitChunks toStr
            (snd (calculateSegmentCoverage toStr calc c filters DEFAULT_SEARCH_RADIUS))
            cs filters),
   snd (visitChunks toStr
          (snd (calculateSegmentCoverage toStr calc c filters DEFAULT_SEARCH_RADIUS))
          cs filters)).
Proof.
  cbn [visitChunks].
  destruct (calculateSegmentCoverage toStr calc c filters DEFAULT_SEARCH_RADIUS)
    as [r calc1].
  cbn [fst snd]. by destruct (visitChunks toStr calc1 cs filters).
Qed.

Lemma visitChunks_keeps calc cs filters :
  points (snd (visitChunks toStr calc cs filters)) = points calc ∧
  spatialIndex (snd (visitChunks toStr calc cs filters)) = spatialIndex calc ∧
  ∀ k r, cache calc !! k = Some r →
         cache (snd (visitChunks toStr calc cs filters)) !! k = Some r.
Proof.
  revert calc. induction cs as [|c cs IH]; intros calc; [done|].
  rewrite visitChunks_cons. cbn [snd].
  destruct (IH (snd (calculateSegmentCoverage toStr calc c filters
                       DEFAULT_SEARCH_RADIUS))) as (Hp & Hi & Hc).
  pose proof (calculateSegmentCoverage_stores toStr calc c filters
                DEFAULT_SEARCH_RADIUS) as (_ & Hi' & Hp'). cbv zeta in Hi', Hp'.
  split; [congruence | split; [congruence|]].
  intros k r Hk. apply Hc. by apply call_keeps_cache.
Qed.

Lemma visitChunks_length calc cs filters :
  length (fst (visitChunks toStr calc cs filters)) = length cs.
Proof.
  revert calc. induction cs as [|c cs IH]; intros calc; [done|].
  rewrite visitChunks_cons. cbn [fst length]. by rewrite IH.
Qed.

Lemma analyzeRouteCoverage_visit calc path_ filters :
  analyzeRouteCoverage toStr calc path_ filters =
  (let segments :=
     List.filter (fun r => existsb gt0 (Object_values (coverageDetails r)))
                 (fst (visitChunks toStr calc (chunks path_) filters)) in
   (segments, statistics toStr segments),
   snd (visitChunks toStr calc (chunks path_) filters)).
Proof.
  unfold analyzeRouteCoverage. rewrite analyzeLoop_chunks.
  change (skipn 0 path_) with path_. fold (chunks path_). done.
Qed.

(** X5: an analysis of a whole route leaves the points and the index alone and
    keeps every cache entry that was there before it. *)
Theorem analyzeRouteCoverage_frame calc path_ filters :
  let after := snd (analyzeRouteCoverage toStr calc path_ filters) in
  points after = points calc ∧
  spatialIndex after = spatialIndex calc ∧
  ∀ k r, cache calc !! k = Some r → cache after !! k = Some r.
Proof.
  cbv zeta. rewrite analyzeRouteCoverage_visit. cbn [snd].
  apply visitChunks_keeps.
Qed.

(** Chunks whose results are all in a cache are served from it, in order,
    without a change of the calculator. *)
Lemma visitChunks_served calc cs filters calc2 :
  (∀ k r, cache (snd (visitChunks toStr calc cs filters)) !! k = Some r →
          cache calc2 !! k = Some r) →
  visitChunks toStr calc2 cs filters =
  (fst (visitChunks toStr calc cs filters), calc2).
Proof.
  revert calc. induction cs as [|c cs IH]; intros calc Hsub; [done|].
  rewrite visitChunks_cons in Hsub. cbn [snd] in Hsub.
  rewrite (visitChunks_cons calc). cbn [fst].
  set (first := calculateSegmentCoverage toStr calc c filters DEFAULT_SEARCH_RADIUS)
    in *.
  pose proof (calculateSegmentCoverage_stores toStr calc c filters
                DEFAULT_SEARCH_RADIUS) as (Hstored & _ & _).
  cbv zeta in Hstored. fold first in Hstored.
  assert (Hhit : cache calc2 !! getCacheKey toStr c filters = Some (fst first)).
  { apply Hsub. by apply visitChunks_keeps. }
  rewrite visitChunks_cons.
  rewrite (calculateSegmentCoverage_hit _ _ _ _ _ _ Hhit). cbn [fst snd].
  by rewrite (IH (snd first) Hsub).
Qed.

(** X6: analysing the same route under the same filters again returns the
    same segments and the same statistics, all served from the cache, and
    leaves the calculator as the first analysis left it. *)
Theorem analyzeRouteCoverage_again calc path_ filters :
  let first := analyzeRouteCoverage toStr calc path_ filters in
  let second := analyzeRouteCoverage toStr (snd first) path_ filters in
  fst second = fst first ∧ snd second = snd first.
Proof.
  cbv zeta. rewrite !analyzeRouteCoverage_visit. cbn [fst snd].
  rewrite (visitChunks_served calc (chunks path_) filters
             (snd (visitChunks toStr calc (chunks path_) filters))) by auto.
  done.
Qed.

Lemma chunksFrom_count {A} fuel (l : list A) :
  length l ≤ fuel →
  length l ≤ SEGMENT_LENGTH * length (chunksFrom fuel l) < length l + SEGMENT_LENGTH.
Proof.
  unfold SEGMENT_LENGTH. revert l. induction fuel as [|fuel IH]; intros l Hlen.
  - destruct l; simpl in *; lia.
  - destruct l as [|x l]; [simpl; lia|].
    cbn [chunksFrom length].
    specialize (IH (skipn 5 (x :: l))). rewrite length_skipn in IH.
    cbn [length] in *.
    destruct (decide (S (length l) ≤ 5)) as [Hs | Hs].
    + rewrite skipn_all2 by (cbn [length]; unfold SEGMENT_LENGTH; lia).
      destruct fuel; cbn [chunksFrom length]; lia.
    + unfold SEGMENT_LENGTH in *. lia.
Qed.

(** X7: a route of [n] points yields at most the [n / 5] rounded up segments:
    five times the number of returned segments is below [n + 5], and the
    number of chunks visited is exactly [n / 5] rounded up. *)
Theorem analyzeRouteCoverage_segment_count calc path_ filters :
  let out := fst (analyzeRouteCoverage toStr calc path_ filters) in
  totalSegments (snd out) = length (fst out) ∧
  length (fst out) ≤ length (chunks path_) ∧
  length path_ ≤ SEGMENT_LENGTH * length (chunks path_) < length path_ + SEGMENT_LENGTH ∧
  SEGMENT_LENGTH * length (fst out) < length path_ + SEGMENT_LENGTH.
Proof.
  cbv zeta. rewrite analyzeRouteCoverage_visit. cbn [fst snd statistics totalSegments].
  pose proof (chunksFrom_count (length path_) path_ (le_n _)) as Hc.
  fold (chunks path_) in Hc.
  assert (Hle : length (List.filter
                          (fun r => existsb gt0 (Object_values (coverageDetails r)))
                          (fst (visitChunks toStr calc (chunks path_) filters)))
                ≤ length (chunks path_)).
  { rewrite <- (visitChunks_length calc (chunks path_) filters).
    induction (fst (visitChunks toStr calc (chunks path_) filters)) as [|r l IH];
      simpl; [done|].
    destruct (existsb gt0 _); simpl; lia. }
  repeat split; try done; try apply Hc. unfold SEGMENT_LENGTH in *. lia.
Qed.

End CacheFacts.

(** ** Scores and breakdowns over a whole analysis *)

Section ScoreFacts.

Variable toStr : R → string.

Lemma computeSegment_coverage calc segment filters searchRadius :
  Forall (fun pr => ¬ In (statusOf pr) Object_prototype_keys)
         (qualifyingPoints toStr calc segment filters searchRadius) →
  coverage (computeSegment toStr calc segment filters searchRadius) =
  Num (meanWeight (map statusOf
         (qualifyingPoints toStr calc segment filters searchRadius))).
Proof.
  intros Hproto. unfold computeSegment; cbv zeta; cbn [coverage].
  rewrite totalPoints_tally, tally_qualifying.
  rewrite (coverageScore_fold_countPoint _ initialTally 0%R Hproto eq_refl).
  destruct (qualifyingPoints toStr calc segment filters searchRadius)
    as [|pr l]; [done|].
  set (sts := map statusOf (pr :: l)).
  replace (length (pr :: l)) with (length sts) by apply length_map.
  assert (Hmean : meanWeight sts =
                  (Rsum (map specWeight sts) / INR (length sts))%R) by reflexivity.
  rewrite Hmean.
  destruct (length sts) eqn:En; [done|].
  cbn [Nat.ltb Nat.leb divide lift1]. f_equal. lra.
Qed.

Lemma qualifyingPoints_from_array calc pts segment filters searchRadius x :
  spatialIndex calc = buildSpatialIndex toStr pts →
  In x (qualifyingPoints toStr calc segment filters searchRadius) →
  In (snd x) pts ∧ qualifies segment filters searchRadius x = true.
Proof.
  intros Hidx Hx. unfold qualifyingPoints in Hx.
  apply filter_In in Hx as [Hx Hq]. split; [|done].
  apply (collectNearbyPoints_origin toStr _ pts) in Hx; [|done].
  apply list_elem_of_In. by apply list_elem_of_lookup_2 in Hx.
Qed.

Lemma computeSegment_inRange calc pts segment filters searchRadius :
  spatialIndex calc = buildSpatialIndex toStr pts →
  Forall (fun p => ¬ In (status (properties p)) Object_prototype_keys) pts →
  inRange (coverage (computeSegment toStr calc segment filters searchRadius)).
Proof.
  intros Hidx Hpts. rewrite computeSegment_coverage.
  - eexists. split; [done | apply meanWeight_bounds].
  - apply Forall_forall. intros x Hx. apply list_elem_of_In in Hx.
    apply (qualifyingPoints_from_array _ pts) in Hx as [Hx _]; [|done].
    rewrite Forall_forall in Hpts. apply Hpts. by apply list_elem_of_In.
Qed.

Lemma cacheAll_new pts P : cacheAll toStr pts P (newCoverageCalculator toStr pts).
Proof. split; [done|]. intros k r H. simpl in H. by rewrite lookup_empty in H. Qed.

Lemma cacheAll_call pts (P : RouteSegment → Prop) calc segment filters searchRadius :
  (∀ calc', spatialIndex calc' = buildSpatialIndex toStr pts →
            P (computeSegment toStr calc' segment filters searchRadius)) →
  cacheAll toStr pts P calc →
  P (fst (calculateSegmentCoverage toStr calc segment filters searchRadius)) ∧
  cacheAll toStr pts P (snd (calculateSegmentCoverage toStr calc segment filters searchRadius)).
Proof.
  intros Hcomp [Hidx Hcache].
  destruct (cache calc !! getCacheKey toStr segment filters) as [c|] eqn:E.
  - rewrite (calculateSegmentCoverage_hit _ _ _ _ _ _ E). cbn [fst snd].
    split; [by apply (Hcache _ _ E) | done].
  - rewrite (calculateSegmentCoverage_miss _ _ _ _ _ E). cbn [fst snd].
    split; [by apply Hcomp|]. split; [done|]. cbn [cache].
    intros k r Hk.
    destruct (decide (getCacheKey toStr segment filters = k)) as [<- | Hne].
    + rewrite lookup_insert_eq in Hk. injection Hk as <-. by apply Hcomp.
    + rewrite lookup_insert_ne in Hk by done. by apply (Hcache k).
Qed.

Lemma cacheAll_visitChunks pts (P : RouteSegment → Prop) calc cs filters :
  (∀ calc' segment, spatialIndex calc' = buildSpatialIndex toStr pts →
     P (computeSegment toStr calc' segment filters DEFAULT_SEARCH_RADIUS)) →
  cacheAll toStr pts P calc →
  Forall P (fst (visitChunks toStr calc cs filters)).
Proof.
  intros Hcomp. revert calc. induction cs as [|c cs IH]; intros calc Hinv;
    [constructor|].
  rewrite visitChunks_cons. cbn [fst].
  destruct (cacheAll_call pts P calc c filters DEFAULT_SEARCH_RADIUS
              (fun calc' => Hcomp calc' c) Hinv) as [Hr Hinv'].
  constructor; [done | by apply IH].
Qed.

Lemma sum_inRange (scores : list (number R)) :
  Forall inRange scores →
  ∃ s, fold_right (lift2 Rplus) (Num 0%R) scores = Num s ∧
       (0 <= s <= INR (length scores))%R.
Proof.
  induction 1 as [|c l (x & -> & Hx) Hl (s & Hs & Hb)].
  - exists 0%R. simpl. split; [done | lra].
  - exists (x + s)%R. cbn [fold_right]. rewrite Hs. split; [done|].
    change (length (Num x :: l)) with (S (length l)). rewrite S_INR. lra.
Qed.

Lemma meanScore_inRange (scores : list (number R)) :
  Forall inRange scores → scores ≠ [] → inRange (meanScore scores).
Proof.
  intros Hall Hne. destruct (sum_inRange scores Hall) as (s & Hs & Hb).
  destruct scores as [|c l]; [done|]. unfold meanScore. rewrite Hs.
  cbn [lift1]. eexists. split; [done|].
  assert (Hn : (0 < INR (length (c :: l)))%R) by (apply lt_0_INR; simpl; lia).
  split.
  - apply Rmult_le_pos; [lra|]. left. by apply Rinv_0_lt_compat.
  - apply Rmult_le_reg_r with (r := INR (length (c :: l))); [done|].
    unfold Rdiv. rewrite Rmult_assoc, Rinv_l by lra. lra.
Qed.

Lemma averageCoverage_meanScore segments :
  averageCoverage (statistics toStr segments) = meanScore (map coverage segments).
Proof.
  unfold statistics; cbn [averageCoverage]. rewrite reduce_coverage.
  rewrite lift2_Rplus_0_l. unfold meanScore.
  destruct segments as [|s l]; [done|].
  cbn [map length divide]. by rewrite length_map.
Qed.

Lemma getCoverageColor_inRange x :
  (0 <= x <= 1)%R →
  getCoverageColor toStr (Num x) = "hsl(" +:+ toStr (x * 120)%R +:+ ", 100%, 50%)".
Proof.
  intros Hx. unfold getCoverageColor.
  destruct (Rlt_dec x 0); [lra|]. destruct (Rlt_dec 1 x); [lra | done].
Qed.

(** X8: on a calculator built from points whose statuses name no member of
    Object.prototype, every segment an analysis returns, computed or served
    from the cache, has a score that is a number in [[0, 1]]; so has the
    average when a segment is kept, and the colour of every distribution entry
    is built from its score without clamping. *)
Theorem route_scores_in_range pts path_ filters :
  Forall (fun p => ¬ In (status (properties p)) Object_prototype_keys) pts →
  let out := fst (analyzeRouteCoverage toStr (newCoverageCalculator toStr pts)
                                       path_ filters) in
  Forall (fun seg => inRange (coverage seg)) (fst out) ∧
  (fst out ≠ [] → inRange (averageCoverage (snd out))) ∧
  Forall (fun e => ∃ x, entryCoverage e = Num x ∧ (0 <= x <= 1)%R ∧
                        color e = "hsl(" +:+ toStr (x * 120)%R +:+ ", 100%, 50%)")
         (coverageDistribution (snd out)).
Proof.
  intros Hpts; cbv zeta. rewrite analyzeRouteCoverage_visit. cbn [fst snd].
  set (segments := List.filter _ _).
  assert (Hall : Forall (fun seg => inRange (coverage seg)) segments).
  { apply Forall_forall. intros seg Hseg. apply list_elem_of_In in Hseg.
    apply filter_In in Hseg as [Hseg _].
    pose proof (cacheAll_visitChunks pts (fun seg => inRange (coverage seg))
                  (newCoverageCalculator toStr pts) (chunks path_) filters) as Hv.
    rewrite Forall_forall in Hv. apply Hv.
    - intros calc' segment Hidx. by apply (computeSegment_inRange _ pts).
    - apply cacheAll_new.
    - by apply list_elem_of_In. }
  split; [done|]. split.
  - intros Hne. rewrite averageCoverage_meanScore. apply meanScore_inRange.
    + by apply Forall_map.
    + by destruct segments.
  - unfold statistics; cbn [coverageDistribution]. apply Forall_map.
    eapply Forall_impl; [exact Hall|]. intros seg (x & Hx & Hb). cbn.
    exists x. rewrite Hx. split; [done | split; [done|]].
    by apply getCoverageColor_inRange.
Qed.

(** X9: a calculator built from no point keeps no segment of any route: the
    analysis returns no segment, a count of 0, an average that is NaN and an
    empty distribution. *)
Theorem no_points_no_segments path_ filters :
  fst (analyzeRouteCoverage toStr (newCoverageCalculator toStr []) path_ filters) =
  ([], {| totalSegments := 0; averageCoverage := NaN; coverageDistribution := [] |}).
Proof.
  rewrite analyzeRouteCoverage_visit. cbn [fst].
  assert (Hnone : List.filter
            (fun r => existsb gt0 (Object_values (coverageDetails r)))
            (fst (visitChunks toStr (newCoverageCalculator toStr []) (chunks path_)
                              filters)) = []).
  { pose proof (cacheAll_visitChunks []
                  (fun r => existsb gt0 (Object_values (coverageDetails r)) = false)
                  (newCoverageCalculator toStr []) (chunks path_) filters) as Hv.
    assert (Hall : Forall
              (fun r => existsb gt0 (Object_values (coverageDetails r)) = false)
              (fst (visitChunks toStr (newCoverageCalculator toStr []) (chunks path_)
                                filters))).
    { apply Hv; [|apply cacheAll_new].
      intros calc' segment Hidx. unfold computeSegment, tally; cbv zeta.
      rewrite collectNearbyPoints_flat. unfold visitedBuckets. rewrite Hidx.
      cbn [coverageDetails].
      replace (flat_map _ _) with (@nil pointRef); [reflexivity|].
      symmetry. induction (flat_map _ segment) as [|k ks IH]; [done|].
      cbn [flat_map]. rewrite IH.
      change (buildSpatialIndex toStr []) with (∅ : gmap string (list pointRef)).
      by rewrite lookup_empty. }
    clear Hv. revert Hall.
    generalize (fst (visitChunks toStr (newCoverageCalculator toStr []) (chunks path_)
                                 filters)).
    intros results Hall.
    induction Hall as [|r l Hr Hl IH]; [done|]. cbn [List.filter]. by rewrite Hr. }
  rewrite Hnone. reflexivity.
Qed.

End ScoreFacts.

(** ** The breakdown for the four classes *)

Lemma fold_countPoint_details l t a b c d :
  Forall (fun pr => In (statusOf pr) knownClasses) l →
  details t = [("5G", Num a); ("4G", Num b); ("3G", Num c); ("other", Num d)] →
  details (fold_left countPoint l t) =
  [("5G", Num (a + countStatus "5G" l)); ("4G", Num (b + countStatus "4G" l));
   ("3G", Num (c + countStatus "3G" l)); ("other", Num (d + countStatus "other" l))].
Proof.
  intros Hl. revert t a b c d.
  induction Hl as [|pr l Hpr Hl IH]; intros t a b c d Ht.
  - unfold countStatus. simpl. rewrite Ht. by rewrite !Nat.add_0_r.
  - cbn [fold_left]. unfold countStatus. cbn [List.filter].
    fold (statusOf pr) in *.
    assert (Hcases : statusOf pr = "5G" ∨ statusOf pr = "4G" ∨
                     statusOf pr = "3G" ∨ statusOf pr = "other")
      by (simpl in Hpr; intuition).
    destruct Hcases as [E | [E | [E | E]]].
    + rewrite (IH _ (S a) b c d) by (simpl; rewrite Ht; fold (statusOf pr);
                                     rewrite E; reflexivity).
      rewrite E. cbn. unfold countStatus. repeat f_equal; lia.
    + rewrite (IH _ a (S b) c d) by (simpl; rewrite Ht; fold (statusOf pr);
                                     rewrite E; reflexivity).
      rewrite E. cbn. unfold countStatus. repeat f_equal; lia.
    + rewrite (IH _ a b (S c) d) by (simpl; rewrite Ht; fold (statusOf pr);
                                     rewrite E; reflexivity).
      rewrite E. cbn. unfold countStatus. repeat f_equal; lia.
    + rewrite (IH _ a b c (S d)) by (simpl; rewrite Ht; fold (statusOf pr);
                                     rewrite E; reflexivity).
      rewrite E. cbn. unfold countStatus. repeat f_equal; lia.
Qed.

Lemma countStatus_known l :
  Forall (fun pr => In (statusOf pr) knownClasses) l →
  countStatus "5G" l + countStatus "4G" l + countStatus "3G" l +
  countStatus "other" l = length l.
Proof.
  unfold countStatus. induction 1 as [|pr l Hpr Hl IH]; [done|].
  cbn [List.filter length].
  assert (Hcases : statusOf pr = "5G" ∨ statusOf pr = "4G" ∨
                   statusOf pr = "3G" ∨ statusOf pr = "other")
    by (simpl in Hpr; intuition).
  destruct Hcases as [E | [E | [E | E]]]; rewrite E; cbn; lia.
Qed.

Section BreakdownFacts.

Variable toStr : R → string.

(** X10: when every indexed point has one of the four statuses 5G, 4G, 3G,
    other, the breakdown of a segment has exactly these four keys, each count
    is the number of qualifying points of that status, and the four counts add
    up to the number of qualifying points. *)
Theorem breakdown_counts_by_class pts segment filters searchRadius :
  Forall (fun p => In (status (properties p)) knownClasses) pts →
  let calc := newCoverageCalculator toStr pts in
  let passing := qualifyingPoints toStr calc segment filters searchRadius in
  details (tally toStr calc segment filters searchRadius) =
    [("5G", Num (countStatus "5G" passing)); ("4G", Num (countStatus "4G" passing));
     ("3G", Num (countStatus "3G" passing));
     ("other", Num (countStatus "other" passing))] ∧
  countStatus "5G" passing + countStatus "4G" passing + countStatus "3G" passing +
    countStatus "other" passing =
  totalPoints (tally toStr calc segment filters searchRadius).
Proof.
  intros Hpts; cbv zeta.
  assert (Hpass : Forall (fun pr => In (statusOf pr) knownClasses)
            (qualifyingPoints toStr (newCoverageCalculator toStr pts) segment
                              filters searchRadius)).
  { apply Forall_forall. intros x Hx. apply list_elem_of_In in Hx.
    apply (qualifyingPoints_from_array toStr _ pts) in Hx as [Hx _]; [|done].
    rewrite Forall_forall in Hpts. apply Hpts. by apply list_elem_of_In. }
  split.
  - rewrite tally_qualifying.
    by rewrite (fold_countPoint_details _ initialTally 0 0 0 0 Hpass eq_refl).
  - rewrite totalPoints_tally. by apply countStatus_known.
Qed.

Lemma meanWeight_constant st sts :
  sts ≠ [] → Forall (fun s => s = st) sts → meanWeight sts = specWeight st.
Proof.
  intros Hne Hall. destruct sts as [|s l]; [done|]. unfold meanWeight.
  assert (Hsum : Rsum (map specWeight (s :: l)) =
                 (INR (length (s :: l)) * specWeight st)%R).
  { clear Hne. induction Hall as [|x l' -> Hl IH]; [simpl; lra|].
    change (length (st :: l')) with (S (length l')). rewrite S_INR.
    cbn [map Rsum]. rewrite IH. lra. }
  rewrite Hsum.
  assert (Hn : (0 < INR (length (s :: l)))%R) by (apply lt_0_INR; simpl; lia).
  field. lra.
Qed.

(** X11: with exactly one status selected in the filter, the score of a
    freshly built calculator is the weight of that status as soon as one point
    qualifies (for [["4G"]] the score is 0.7, whatever else the filter
    holds).  Numbers are exact reals: the running sum and the division are
    not rounded, so a score computed in binary64 agrees with the weight up to
    rounding only. *)
Theorem single_status_score pts segment filters searchRadius st :
  statuses filters = [st] →
  ¬ In st Object_prototype_keys →
  0 < totalPoints (tally toStr (newCoverageCalculator toStr pts) segment filters
                         searchRadius) →
  coverage (fst (calculateSegmentCoverage toStr (newCoverageCalculator toStr pts)
                   segment filters searchRadius)) = Num (specWeight st).
Proof.
  intros Hst Hproto Hpos.
  rewrite calculateSegmentCoverage_miss by apply lookup_empty. cbn [fst].
  assert (Hall : Forall (fun s => s = st)
            (map statusOf (qualifyingPoints toStr (newCoverageCalculator toStr pts)
                             segment filters searchRadius))).
  { apply Forall_map, Forall_forall. intros x Hx. apply list_elem_of_In in Hx.
    unfold qualifyingPoints in Hx. apply filter_In in Hx as [_ Hq].
    unfold qualifies in Hq. apply andb_true_iff in Hq as [Hpass _].
    unfold passesFilters in Hpass; cbv zeta in Hpass.
    destruct (rejectsOptional (countries filters) _); [done|].
    destruct (rejectsOptional (phoneTypes filters) _); [done|].
    destruct (rejectsRequired (operators filters) _); [done|].
    destruct (rejectsRequired (statuses filters) _) eqn:E; [done|].
    apply rejectsRequired_false in E as [E | E]; rewrite Hst in E; [done|].
    destruct E as [E | []]. unfold statusOf. by symmetry. }
  rewrite computeSegment_coverage.
  - f_equal. apply meanWeight_constant; [|done].
    rewrite totalPoints_tally in Hpos.
    destruct (qualifyingPoints toStr _ segment filters searchRadius); [simpl in Hpos; lia | done].
  - rewrite Forall_map in Hall. eapply Forall_impl; [exact Hall|].
    intros x Hx. simpl in Hx. by rewrite Hx.
Qed.

End BreakdownFacts.

(** ** The distance *)

Section DistanceFacts.
Local Open Scope R_scope.

(** X12: the distance does not depend on the order of the two points. *)
Theorem haversineDistance_symmetric lat1 lon1 lat2 lon2 :
  haversineDistance lat1 lon1 lat2 lon2 = haversineDistance lat2 lon2 lat1 lon1.
Proof.
  unfold haversineDistance; cbv zeta.
  replace (toRad (lat1 - lat2) / 2) with (- (toRad (lat2 - lat1) / 2))
    by (unfold toRad; lra).
  replace (toRad (lon1 - lon2) / 2) with (- (toRad (lon2 - lon1) / 2))
    by (unfold toRad; lra).
  rewrite !sin_neg.
  set (s := sin (toRad (lat2 - lat1) / 2)).
  set (u := sin (toRad (lon2 - lon1) / 2)).
  replace (- s * - s + cos (toRad lat2) * cos (toRad lat1) * - u * - u)
    with (s * s + cos (toRad lat1) * cos (toRad lat2) * u * u) by ring.
  done.
Qed.

Lemma atan_nonneg x : 0 <= x → 0 <= atan x.
Proof.
  intros [Hx | <-]; [|rewrite atan_0; lra].
  pose proof (atan_increasing 0 x Hx) as H. rewrite atan_0 in H. lra.
Qed.

Lemma sin_sqr_quarter y : Rabs y <= PI / 4 → sin y * sin y <= 1 / 2.
Proof.
  intros Hy.
  assert (Hb : - (PI / 4) <= y <= PI / 4).
  { revert Hy. unfold Rabs. destruct (Rcase_abs y); lra. }
  assert (Hc : 0 <= cos (2 * y)) by (apply cos_ge_0; lra).
  rewrite cos_2a_sin in Hc. lra.
Qed.

Lemma cos_product_bound x1 x2 :
  cos x1 * cos x2 <= 1 - sin ((x2 - x1) / 2) * sin ((x2 - x1) / 2).
Proof.
  rewrite sin_half_sqr, cos_minus.
  pose proof (COS_bound (x1 + x2)) as [_ H]. rewrite cos_plus in H. lra.
Qed.

Lemma Rabs_toRad_half d : Rabs (toRad d / 2) = Rabs d * (PI / 360).
Proof.
  pose proof PI_RGT_0. unfold toRad.
  replace (d * (PI / 180) / 2) with (d * (PI / 360)) by lra.
  rewrite Rabs_mult. rewrite (Rabs_pos_eq (PI / 360)); [done | lra].
Qed.

(** The haversine term of two points at most 90 degrees apart in latitude and
    in longitude is at most 3/4. *)
Lemma haversine_term_quadrant lat1 lon1 lat2 lon2 :
  Rabs (lat2 - lat1) <= 90 → Rabs (lon2 - lon1) <= 90 →
  0 <= sin (toRad (lat2 - lat1) / 2) * sin (toRad (lat2 - lat1) / 2) +
       cos (toRad lat1) * cos (toRad lat2) *
       sin (toRad (lon2 - lon1) / 2) * sin (toRad (lon2 - lon1) / 2) <= 3 / 4.
Proof.
  intros Hlat Hlon. pose proof PI_RGT_0 as Hpi.
  split; [apply (haversineDistance_sqrt_arguments lat1 lon1 lat2 lon2)|].
  pose proof (sin_sqr_quarter (toRad (lat2 - lat1) / 2)) as Hs.
  rewrite Rabs_toRad_half in Hs. specialize (Hs ltac:(nra)).
  pose proof (sin_sqr_quarter (toRad (lon2 - lon1) / 2)) as Hu.
  rewrite Rabs_toRad_half in Hu. specialize (Hu ltac:(nra)).
  pose proof (cos_product_bound (toRad lat1) (toRad lat2)) as Hc.
  replace ((toRad lat2 - toRad lat1) / 2) with (toRad (lat2 - lat1) / 2) in Hc
    by (unfold toRad; lra).
  set (s := sin (toRad (lat2 - lat1) / 2)) in *.
  set (u := sin (toRad (lon2 - lon1) / 2)) in *.
  set (c := cos (toRad lat1) * cos (toRad lat2)) in *.
  assert (Hs0 : 0 <= s * s) by nra.
  assert (Hu0 : 0 <= u * u) by nra.
  replace (c * u * u) with (c * (u * u)) by ring.
  destruct (Rle_dec 0 c) as [Hc0 | Hc0]; nra.
Qed.

(** X13: for two points at most 90 degrees apart in latitude and in longitude
    the haversine term stays at most 3/4, away from the value 1 at which
    rounding can make [Math.sqrt(1 - a)] not a number, and the distance lies
    between 0 and a third of the circumference, 6371 * (2 PI / 3) kilometres.
    Numbers are exact reals. *)
Theorem haversineDistance_range lat1 lon1 lat2 lon2 :
  Rabs (lat2 - lat1) <= 90 → Rabs (lon2 - lon1) <= 90 →
  0 <= haversineDistance lat1 lon1 lat2 lon2 <= 6371 * (2 * PI / 3).
Proof.
  intros Hlat Hlon. pose proof PI_RGT_0 as Hpi.
  pose proof (haversine_term_quadrant lat1 lon1 lat2 lon2 Hlat Hlon) as Ha.
  unfold haversineDistance; cbv zeta.
  set (a := sin (toRad (lat2 - lat1) / 2) * sin (toRad (lat2 - lat1) / 2) +
            cos (toRad lat1) * cos (toRad lat2) *
            sin (toRad (lon2 - lon1) / 2) * sin (toRad (lon2 - lon1) / 2)) in *.
  assert (Hq : 0 < sqrt (1 - a)) by (apply sqrt_lt_R0; lra).
  rewrite Math_atan2_pos by done.
  assert (Hratio : 0 <= sqrt a / sqrt (1 - a) <= sqrt 3).
  { split.
    - apply Rmult_le_pos; [apply sqrt_pos | left; by apply Rinv_0_lt_compat].
    - apply Rmult_le_reg_r with (sqrt (1 - a)); [done|].
      replace (sqrt a / sqrt (1 - a) * sqrt (1 - a)) with (sqrt a)
        by (field; lra).
      rewrite <- sqrt_mult_alt by lra. apply sqrt_le_1_alt. lra. }
  assert (Hup : atan (sqrt a / sqrt (1 - a)) <= PI / 3).
  { rewrite <- (atan_tan (PI / 3)) by lra. rewrite tan_PI3.
    destruct (proj2 Hratio) as [Hlt | ->]; [|lra].
    left. by apply atan_increasing. }
  pose proof (atan_nonneg _ (proj1 Hratio)) as Hlow.
  lra.
Qed.

Lemma arc_of_sin x :
  0 <= x < PI / 2 →
  Math_atan2 (sqrt (sin x * sin x)) (sqrt (1 - sin x * sin x)) = x.
Proof.
  intros [H0 H1].
  assert (Hs : 0 <= sin x) by (apply sin_ge_0; lra).
  assert (Hc : 0 < cos x) by (apply cos_gt_0; lra).
  change (sin x * sin x) with (Rsqr (sin x)).
  rewrite sqrt_Rsqr by done.
  replace (1 - Rsqr (sin x)) with (Rsqr (cos x))
    by (pose proof (sin2_cos2 x); lra).
  rewrite sqrt_Rsqr by lra.
  rewrite Math_atan2_pos by done.
  change (sin x / cos x) with (tan x). apply atan_tan. lra.
Qed.

Lemma sin_sqr_Rabs y : sin y * sin y = sin (Rabs y) * sin (Rabs y).
Proof.
  unfold Rabs. destruct (Rcase_abs y); [|done]. rewrite sin_neg. ring.
Qed.

(** X14: between two points of one meridian less than 180 degrees of latitude
    apart, the distance is the arc: 6371 km times the difference of latitude
    in radians (about 111.2 km per degree). *)
Theorem haversineDistance_meridian lat1 lat2 lon :
  Rabs (lat2 - lat1) < 180 →
  haversineDistance lat1 lon lat2 lon = 6371 * (Rabs (lat2 - lat1) * (PI / 180)).
Proof.
  intros Hd. pose proof PI_RGT_0 as Hpi. pose proof (Rabs_pos (lat2 - lat1)) as Hpos.
  unfold haversineDistance; cbv zeta.
  replace (toRad (lon - lon) / 2) with 0 by (unfold toRad; lra).
  rewrite sin_0.
  replace (sin (toRad (lat2 - lat1) / 2) * sin (toRad (lat2 - lat1) / 2) +
           cos (toRad lat1) * cos (toRad lat2) * 0 * 0)
    with (sin (toRad (lat2 - lat1) / 2) * sin (toRad (lat2 - lat1) / 2)) by ring.
  rewrite (sin_sqr_Rabs (toRad (lat2 - lat1) / 2)).
  replace (Rabs (toRad (lat2 - lat1) / 2)) with (Rabs (lat2 - lat1) * (PI / 360)).
  2:{ unfold toRad.
      replace ((lat2 - lat1) * (PI / 180) / 2) with ((lat2 - lat1) * (PI / 360)) by lra.
      rewrite Rabs_mult, (Rabs_pos_eq (PI / 360)) by lra. done. }
  rewrite arc_of_sin by (split; nra). lra.
Qed.

(** X15: between two points of the equator less than 180 degrees of longitude
    apart, the distance is the arc: 6371 km times the difference of longitude
    in radians. *)
Theorem haversineDistance_equator_arc lon1 lon2 :
  Rabs (lon2 - lon1) < 180 →
  haversineDistance 0 lon1 0 lon2 = 6371 * (Rabs (lon2 - lon1) * (PI / 180)).
Proof.
  intros Hd. pose proof PI_RGT_0 as Hpi. pose proof (Rabs_pos (lon2 - lon1)) as Hpos.
  unfold haversineDistance; cbv zeta.
  replace (toRad (0 - 0) / 2) with 0 by (unfold toRad; lra).
  replace (toRad 0) with 0 by (unfold toRad; lra).
  rewrite sin_0, cos_0.
  replace (0 * 0 + 1 * 1 * sin (toRad (lon2 - lon1) / 2) * sin (toRad (lon2 - lon1) / 2))
    with (sin (toRad (lon2 - lon1) / 2) * sin (toRad (lon2 - lon1) / 2)) by ring.
  rewrite (sin_sqr_Rabs (toRad (lon2 - lon1) / 2)).
  replace (Rabs (toRad (lon2 - lon1) / 2)) with (Rabs (lon2 - lon1) * (PI / 360)).
  2:{ unfold toRad.
      replace ((lon2 - lon1) * (PI / 180) / 2) with ((lon2 - lon1) * (PI / 360)) by lra.
      rewrite Rabs_mult, (Rabs_pos_eq (PI / 360)) by lra. done. }
  rewrite arc_of_sin by (split; nra). lra.
Qed.

End DistanceFacts.

(** ** The colour of a score *)

Section ColourFacts.

Variable toStr : R → string.

(** X16: the colour of a numeric score is [hsl(h, 100%, 50%)] for a hue [h]
    between 0 and 120: 120 times the score when the score is in [[0, 1]], 0
    for a negative score and 120 for a score above 1; the colour of NaN is
    built from NaN. *)
Theorem getCoverageColor_hue (x : R) :
  (∃ h : R,
     getCoverageColor toStr (Num x) = "hsl(" +:+ toStr h +:+ ", 100%, 50%)" ∧
     (0 <= h <= 120)%R ∧
     ((0 <= x <= 1)%R → h = (x * 120)%R) ∧
     ((x < 0)%R → h = 0%R) ∧
     ((1 < x)%R → h = 120%R)) ∧
  getCoverageColor toStr NaN = "hsl(NaN, 100%, 50%)".
Proof.
  split; [|done]. unfold getCoverageColor.
  destruct (Rlt_dec x 0) as [Hneg | Hnn]; [|destruct (Rlt_dec 1 x) as [Hbig | Hok]].
  - exists 0%R. replace (Rmax 0 (Rmin 1 x) * 120)%R with 0%R.
    + repeat split; intros; lra.
    + rewrite Rmin_right, Rmax_left by lra. lra.
  - exists 120%R. replace (Rmax 0 (Rmin 1 x) * 120)%R with 120%R.
    + repeat split; intros; lra.
    + rewrite Rmin_left, Rmax_right by lra. lra.
  - exists (x * 120)%R. repeat split; intros; lra.
Qed.

End ColourFacts.

(** ** The available filter options *)

Lemma Set_add_string_In s x y : In y (Set_add_string s x) ↔ In y s ∨ y = x.
Proof.
  unfold Set_add_string. destruct (includes s x) eqn:E.
  - apply includes_In in E. split; [auto|]. by intros [H | ->].
  - rewrite in_app_iff. simpl. split.
    + intros [H | [<- | []]]; auto.
    + intros [H | ->]; auto.
Qed.

Lemma Set_add_string_NoDup s x : NoDup s → NoDup (Set_add_string s x).
Proof.
  intros H. unfold Set_add_string. destruct (includes s x) eqn:E; [done|].
  apply includes_false in E. apply NoDup_app. split; [done|]. split.
  - intros y Hy Hx. apply list_elem_of_In in Hy, Hx.
    destruct Hx as [<- | []]. done.
  - apply NoDup_singleton.
Qed.

Lemma addIfTruthy_In s attr y :
  In y (addIfTruthy s attr) ↔ In y s ∨ (y ≠ "" ∧ attr = Some y).
Proof.
  unfold addIfTruthy. destruct attr as [x|].
  - destruct (String.eqb_spec x "") as [-> | Hne].
    + split; [auto|]. intros [H | [Hy [= <-]]]; done.
    + rewrite Set_add_string_In. split.
      * intros [H | ->]; auto.
      * intros [H | [_ [= ->]]]; auto.
  - split; [auto|]. by intros [H | [_ H]].
Qed.

Lemma addIfTruthy_NoDup s attr : NoDup s → NoDup (addIfTruthy s attr).
Proof.
  intros H. unfold addIfTruthy. destruct attr as [x|]; [|done].
  destruct (String.eqb x ""); [done|]. by apply Set_add_string_NoDup.
Qed.

Lemma fold_addIfTruthy (attr : CoveragePoint → option string) l acc :
  NoDup acc →
  NoDup (fold_left (fun s p => addIfTruthy s (attr p)) l acc) ∧
  ∀ y, In y (fold_left (fun s p => addIfTruthy s (attr p)) l acc) ↔
       In y acc ∨ (y ≠ "" ∧ ∃ p, In p l ∧ attr p = Some y).
Proof.
  revert acc. induction l as [|p l IH]; intros acc Hnd; cbn [fold_left].
  - split; [done|]. intros y. split; [auto|]. by intros [H | (_ & p & [] & _)].
  - destruct (IH _ (addIfTruthy_NoDup acc (attr p) Hnd)) as [Hnd' Hin].
    split; [done|]. intros y. rewrite Hin, addIfTruthy_In. split.
    + intros [[H | [Hy Hp]] | (Hy & q & Hq & Hattr)]; auto.
      * right. split; [done|]. exists p. split; [by left | done].
      * right. split; [done|]. exists q. split; [by right | done].
    + intros [H | (Hy & q & [<- | Hq] & Hattr)]; auto.
      right. split; [done|]. by exists q.
Qed.

Lemma fold_addFeatureOptions features sets :
  fold_left addFeatureOptions features sets =
  {| countries :=
       fold_left (fun s p => addIfTruthy s (country (properties p))) features
                 (countries sets);
     phoneTypes :=
       fold_left (fun s p => addIfTruthy s (phone_type (properties p))) features
                 (phoneTypes sets);
     operators :=
       fold_left (fun s p => addIfTruthy s (Some (operator (properties p)))) features
                 (operators sets);
     statuses :=
       fold_left (fun s p => addIfTruthy s (Some (status (properties p)))) features
                 (statuses sets) |}.
Proof.
  revert sets. induction features as [|p l IH]; intros sets; cbn [fold_left].
  - by destruct sets.
  - rewrite IH. reflexivity.
Qed.

Lemma fold_addIfTruthy_options attr features :
  optionsOf attr features (fold_left (fun s p => addIfTruthy s (attr p)) features []).
Proof.
  destruct (fold_addIfTruthy attr features [] (NoDup_nil_2 (A:=string))) as [Hnd Hin].
  split; [done|]. intros s. rewrite Hin. split; [by intros [[] | H] | auto].
Qed.

(** X17: the options offered by the four filter menus.  Each list holds, once
    each, exactly the non-empty values that its attribute takes on the
    features of the data; absent and empty attributes add nothing. *)
Theorem availableFilterOptions_lists features :
  optionsOf (fun p => country (properties p)) features
            (countries (availableFilterOptions features)) ∧
  optionsOf (fun p => phone_type (properties p)) features
            (phoneTypes (availableFilterOptions features)) ∧
  optionsOf (fun p => Some (operator (properties p))) features
            (operators (availableFilterOptions features)) ∧
  optionsOf (fun p => Some (status (properties p))) features
            (statuses (availableFilterOptions features)).
Proof.
  unfold availableFilterOptions. rewrite fold_addFeatureOptions.
  cbn [countries phoneTypes operators statuses].
  split; [|split; [|split]].
  - apply (fold_addIfTruthy_options (fun p => country (properties p))).
  - apply (fold_addIfTruthy_options (fun p => phone_type (properties p))).
  - apply (fold_addIfTruthy_options (fun p => Some (operator (properties p)))).
  - apply (fold_addIfTruthy_options (fun p => Some (status (properties p)))).
Qed.

Lemma all_options_allow features p :
  In p features →
  operator (properties p) ≠ "" → status (properties p) ≠ "" →
  passesFilters (availableFilterOptions features) p = true.
Proof.
  intros Hp Hop Hst.
  unfold availableFilterOptions. rewrite fold_addFeatureOptions.
  unfold passesFilters; cbv zeta. cbn [countries phoneTypes operators statuses].
  assert (Hc : rejectsOptional
                 (fold_left (fun s p => addIfTruthy s (country (properties p)))
                            features []) (country (properties p)) = false).
  { apply rejectsOptional_false. unfold optionalAllowed.
    destruct (country (properties p)) as [s|] eqn:E; [|auto].
    destruct (String.eqb_spec s "") as [-> | Hne]; [auto|].
    right; right; right. exists s. split; [done|].
    apply (fold_addIfTruthy_options (fun p => country (properties p))). eauto. }
  assert (Ht : rejectsOptional
                 (fold_left (fun s p => addIfTruthy s (phone_type (properties p)))
                            features []) (phone_type (properties p)) = false).
  { apply rejectsOptional_false. unfold optionalAllowed.
    destruct (phone_type (properties p)) as [s|] eqn:E; [|auto].
    destruct (String.eqb_spec s "") as [-> | Hne]; [auto|].
    right; right; right. exists s. split; [done|].
    apply (fold_addIfTruthy_options (fun p => phone_type (properties p))). eauto. }
  assert (Ho : rejectsRequired
                 (fold_left (fun s p => addIfTruthy s (Some (operator (properties p))))
                            features []) (operator (properties p)) = false).
  { apply rejectsRequired_false. right.
    apply (fold_addIfTruthy_options (fun p => Some (operator (properties p)))). eauto. }
  assert (Hs : rejectsRequired
                 (fold_left (fun s p => addIfTruthy s (Some (status (properties p))))
                            features []) (status (properties p)) = false).
  { apply rejectsRequired_false. right.
    apply (fold_addIfTruthy_options (fun p => Some (status (properties p)))). eauto. }
  by rewrite Hc, Ht, Ho, Hs.
Qed.

(** X18: with every offered option selected in all four menus, every feature
    of the data that has an operator and a status passes the filter. *)
Theorem all_options_selected_passes features p :
  In p features →
  operator (properties p) ≠ "" → status (properties p) ≠ "" →
  passesFilters (availableFilterOptions features) p = true.
Proof. apply all_options_allow. Qed.

Section OptionFacts.

Variable toStr : R → string.

(** X19: on data whose features all have an operator and a status, the first
    call for a segment with every offered option selected returns what the
    call with nothing selected returns. *)
Theorem all_options_same_as_none pts segment searchRadius :
  Forall (fun p => operator (properties p) ≠ "" ∧ status (properties p) ≠ "") pts →
  fst (calculateSegmentCoverage toStr (newCoverageCalculator toStr pts) segment
         (availableFilterOptions pts) searchRadius) =
  fst (calculateSegmentCoverage toStr (newCoverageCalculator toStr pts) segment
         noFilters searchRadius).
Proof.
  intros Hall.
  rewrite !calculateSegmentCoverage_miss by apply lookup_empty. cbn [fst].
  unfold computeSegment; cbv zeta.
  assert (Ht : tally toStr (newCoverageCalculator toStr pts) segment
                     (availableFilterOptions pts) searchRadius =
               tally toStr (newCoverageCalculator toStr pts) segment
                     noFilters searchRadius); [|by rewrite Ht].
  rewrite !tally_qualifying. f_equal. unfold qualifyingPoints.
  apply filter_ext_in. intros x Hx.
  apply (collectNearbyPoints_origin toStr _ pts) in Hx; [|done].
  apply list_elem_of_lookup_2, list_elem_of_In in Hx.
  rewrite Forall_forall in Hall.
  destruct (Hall (snd x) (proj2 (list_elem_of_In _ _) Hx)) as [Hop Hst].
  unfold qualifies. by rewrite (all_options_allow pts (snd x) Hx Hop Hst).
Qed.

End OptionFacts.

(** ** The reach of a segment *)

Lemma tenthsNumeral_numerals : numeralsOn tenthsNumeral tenth.
Proof.
  split.
  - intros x y [a ->] [b ->] H. unfold tenthsNumeral, gridSize in *.
    apply integerNumeral_inj in H.
    + lra.
    + exists a. lra.
    + exists b. lra.
  - intros x _. apply integerNumeral_chars.
Qed.

Section ReachFacts.

Variable toStr : R → string.
Hypothesis numerals : numeralsOn toStr tenth.

Lemma getNearbyGridKeys_In la lo r k :
  In k (getNearbyGridKeys toStr la lo r) →
  ∃ i j : Z, (-1 ≤ i ≤ 1)%Z ∧ (-1 ≤ j ≤ 1)%Z ∧
    k = pairKey toStr (Math_floor (la / gridSize) * gridSize + IZR i * gridSize)%R
                      (Math_floor (lo / gridSize) * gridSize + IZR j * gridSize)%R.
Proof.
  unfold getNearbyGridKeys; cbv zeta. cbn [flat_map map app In].
  intros [H | [H | [H | [H | [H | [H | [H | [H | [H | []]]]]]]]]]; subst k.
  - exists (-1)%Z, (-1)%Z. split; [lia|]. split; [lia|]. done.
  - exists (-1)%Z, 0%Z. split; [lia|]. split; [lia|]. done.
  - exists (-1)%Z, 1%Z. split; [lia|]. split; [lia|]. done.
  - exists 0%Z, (-1)%Z. split; [lia|]. split; [lia|]. done.
  - exists 0%Z, 0%Z. split; [lia|]. split; [lia|]. done.
  - exists 0%Z, 1%Z. split; [lia|]. split; [lia|]. done.
  - exists 1%Z, (-1)%Z. split; [lia|]. split; [lia|]. done.
  - exists 1%Z, 0%Z. split; [lia|]. split; [lia|]. done.
  - exists 1%Z, 1%Z. split; [lia|]. split; [lia|]. done.
Qed.

Lemma pairKey_tenths a b a' b' :
  tenth a → tenth b → tenth a' → tenth b' →
  pairKey toStr a b = pairKey toStr a' b' → a = a' ∧ b = b'.
Proof using numerals.
  intros Ha Hb Ha' Hb' H.
  assert (H' : pairKey toStr a b +:+ String "|" "" =
               pairKey toStr a' b' +:+ String "|" "") by (by rewrite H).
  apply (pairKey_inj toStr tenth numerals) in H' as (? & ? & _); done.
Qed.

Lemma floor_offset_tenth x (i : Z) :
  tenth (Math_floor (x / gridSize) * gridSize + IZR i * gridSize)%R.
Proof.
  exists (Int_part (x / gridSize) + i)%Z. unfold Math_floor.
  rewrite plus_IZR. lra.
Qed.

Lemma floor_tenth x : tenth (Math_floor (x / gridSize) * gridSize)%R.
Proof. exists (Int_part (x / gridSize)). done. Qed.

(** Coordinates three cell widths apart fall into cells more than two cells
    apart. *)
Lemma floor_gap x y :
  (0.3 <= Rabs (x - y))%R →
  (2 < Rabs (Math_floor (x / gridSize) - Math_floor (y / gridSize)))%R.
Proof.
  unfold Math_floor, gridSize.
  pose proof (base_Int_part (x / 0.1)) as [Hx1 Hx2].
  pose proof (base_Int_part (y / 0.1)) as [Hy1 Hy2].
  unfold Rabs.
  destruct (Rcase_abs (x - y));
    destruct (Rcase_abs (IZR (Int_part (x / 0.1)) - IZR (Int_part (y / 0.1))));
    lra.
Qed.

Lemma far_cell_not_neighbour p q r :
  farApart p q →
  In (getGridKey toStr (snd (coordinates p)) (fst (coordinates p)))
     (getNearbyGridKeys toStr (lat q) (lng q) r) → False.
Proof using numerals.
  intros Hfar Hin.
  apply getNearbyGridKeys_In in Hin as (i & j & Hi & Hj & Hk).
  unfold getGridKey in Hk; cbv zeta in Hk.
  apply pairKey_tenths in Hk as [Hlat Hlng];
    [| apply floor_tenth | apply floor_tenth
     | apply floor_offset_tenth | apply floor_offset_tenth].
  assert (Hi' : (-1 <= IZR i <= 1)%R) by (split; apply IZR_le; lia).
  assert (Hj' : (-1 <= IZR j <= 1)%R) by (split; apply IZR_le; lia).
  unfold gridSize in Hlat, Hlng.
  destruct Hfar as [H | H]; apply floor_gap in H; revert H; unfold gridSize;
    apply Rle_not_lt; left; apply Rabs_def1; lra.
Qed.

(** X20: the search radius cannot reach past the neighbouring cells.  When
    every point of the data is 0.3 degree (three cell widths) or more away, in
    latitude or in longitude, from every route point of the segment, the first
    call for the segment counts nothing, whatever radius is passed: score 0
    and all counts 0.  Such a point lies more than two cells from the route
    point, a cell more than the 3x3 block asks for, which keeps the statement
    clear of the rounding of [lat / 0.1] at cell boundaries.  Stated for a
    [Number::toString] that tells multiples of the cell size apart. *)
Theorem beyond_neighbour_cells_nothing_counted pts segment filters searchRadius :
  Forall (fun p => Forall (farApart p) segment) pts →
  fst (calculateSegmentCoverage toStr (newCoverageCalculator toStr pts) segment
         filters searchRadius) =
  {| path := segment;
     coverage := Num 0%R;
     coverageDetails := [("5G", Num 0); ("4G", Num 0); ("3G", Num 0); ("other", Num 0)] |}.
Proof using numerals.
  intros Hfar.
  rewrite calculateSegmentCoverage_miss by apply lookup_empty. cbn [fst].
  unfold computeSegment, tally; cbv zeta.
  assert (Hnone : collectNearbyPoints toStr (newCoverageCalculator toStr pts)
                    segment searchRadius = []); [|by rewrite Hnone].
  destruct (collectNearbyPoints toStr _ segment searchRadius) as [|x l] eqn:E;
    [done|].
  exfalso.
  assert (Hx : In x (collectNearbyPoints toStr (newCoverageCalculator toStr pts)
                       segment searchRadius)) by (rewrite E; by left).
  rewrite collectNearbyPoints_flat in Hx.
  apply fold_Set_add_origin in Hx as [[] | Hx].
  apply (visitedBuckets_member toStr _ pts) in Hx as (Hp & q & Hq & Hk); [|done].
  rewrite Forall_forall in Hfar.
  apply list_elem_of_lookup_2 in Hp. specialize (Hfar _ Hp).
  rewrite Forall_forall in Hfar.
  apply (far_cell_not_neighbour (snd x) q searchRadius); [|done].
  apply Hfar. by apply list_elem_of_In.
Qed.

End ReachFacts.

(** ** Instances *)

(** [route_scores_in_range] for one 5G point on a one-point route. *)
Lemma route_scores_in_range_witness :
  Forall (fun p => ¬ In (status (properties p)) Object_prototype_keys)
         [pointAt "5G" 0 0] ∧
  let out := fst (analyzeRouteCoverage integerNumeral
                    (newCoverageCalculator integerNumeral [pointAt "5G" 0 0])
                    [origin] noFilters) in
  Forall (fun seg => inRange (coverage seg)) (fst out) ∧
  (fst out ≠ [] → inRange (averageCoverage (snd out))) ∧
  Forall (fun e => ∃ x, entryCoverage e = Num x ∧ (0 <= x <= 1)%R ∧
                        color e = "hsl(" +:+ integerNumeral (x * 120)%R +:+ ", 100%, 50%)")
         (coverageDistribution (snd out)).
Proof.
  assert (H : Forall (fun p => ¬ In (status (properties p)) Object_prototype_keys)
                     [pointAt "5G" 0 0]).
  { repeat constructor. simpl. intuition discriminate. }
  split; [exact H|].
  exact (route_scores_in_range integerNumeral [pointAt "5G" 0 0] [origin] noFilters H).
Defined.

(** [breakdown_counts_by_class] for one 5G point on a one-point route. *)
Lemma breakdown_counts_by_class_witness :
  let calc := newCoverageCalculator integerNumeral [pointAt "5G" 0 0] in
  let passing := qualifyingPoints integerNumeral calc [origin] noFilters
                                  DEFAULT_SEARCH_RADIUS in
  details (tally integerNumeral calc [origin] noFilters DEFAULT_SEARCH_RADIUS) =
    [("5G", Num (countStatus "5G" passing)); ("4G", Num (countStatus "4G" passing));
     ("3G", Num (countStatus "3G" passing));
     ("other", Num (countStatus "other" passing))] ∧
  countStatus "5G" passing + countStatus "4G" passing + countStatus "3G" passing +
    countStatus "other" passing =
  totalPoints (tally integerNumeral calc [origin] noFilters DEFAULT_SEARCH_RADIUS).
Proof.
  apply (breakdown_counts_by_class integerNumeral [pointAt "5G" 0 0]).
  repeat constructor.
Defined.

(** [single_status_score] for one 5G point on a one-point route, with 5G
    selected. *)
Lemma single_status_score_witness :
  coverage (fst (calculateSegmentCoverage integerNumeral
                   (newCoverageCalculator integerNumeral [pointAt "5G" 0 0])
                   [origin] only5G DEFAULT_SEARCH_RADIUS)) = Num (specWeight "5G").
Proof.
  apply (single_status_score integerNumeral [pointAt "5G" 0 0] [origin] only5G
           DEFAULT_SEARCH_RADIUS "5G").
  - reflexivity.
  - simpl. intuition discriminate.
  - rewrite totalPoints_tally.
    rewrite (qualifyingPoints_single integerNumeral _ (pointAt "5G" 0 0) origin)
      by reflexivity.
    unfold qualifies. cbn [snd].
    rewrite isNearby_origin_here by (unfold DEFAULT_SEARCH_RADIUS; lra).
    simpl. lia.
Defined.

(** [haversineDistance_range] for two points one degree of longitude apart on
    the equator. *)
Lemma haversineDistance_range_witness :
  (Rabs (0 - 0) <= 90)%R ∧ (Rabs (1 - 0) <= 90)%R ∧
  (0 <= haversineDistance 0 0 0 1 <= 6371 * (2 * PI / 3))%R.
Proof.
  assert (H0 : (Rabs (0 - 0) <= 90)%R) by (rewrite Rabs_pos_eq; lra).
  assert (H1 : (Rabs (1 - 0) <= 90)%R) by (rewrite Rabs_pos_eq; lra).
  split; [exact H0|]. split; [exact H1|].
  exact (haversineDistance_range 0 0 0 1 H0 H1).
Defined.

(** [haversineDistance_meridian] for one degree of latitude. *)
Lemma haversineDistance_meridian_witness :
  (Rabs (1 - 0) < 180)%R ∧
  haversineDistance 0 0 1 0 = (6371 * (Rabs (1 - 0) * (PI / 180)))%R.
Proof.
  assert (H : (Rabs (1 - 0) < 180)%R) by (rewrite Rabs_pos_eq; lra).
  split; [exact H|]. exact (haversineDistance_meridian 0 1 0 H).
Defined.

(** [haversineDistance_equator_arc] for one degree of longitude. *)
Lemma haversineDistance_equator_arc_witness :
  (Rabs (1 - 0) < 180)%R ∧
  haversineDistance 0 0 0 1 = (6371 * (Rabs (1 - 0) * (PI / 180)))%R.
Proof.
  assert (H : (Rabs (1 - 0) < 180)%R) by (rewrite Rabs_pos_eq; lra).
  split; [exact H|]. exact (haversineDistance_equator_arc 0 1 H).
Defined.

(** [all_options_selected_passes] for the one feature of a one-feature
    collection. *)
Lemma all_options_selected_passes_witness :
  passesFilters (availableFilterOptions [pointAt "5G" 0 0]) (pointAt "5G" 0 0) = true.
Proof.
  apply (all_options_selected_passes [pointAt "5G" 0 0] (pointAt "5G" 0 0)).
  - by left.
  - simpl. discriminate.
  - simpl. discriminate.
Defined.

(** [all_options_same_as_none] for one 5G point on a one-point route. *)
Lemma all_options_same_as_none_witness :
  fst (calculateSegmentCoverage integerNumeral
         (newCoverageCalculator integerNumeral [pointAt "5G" 0 0]) [origin]
         (availableFilterOptions [pointAt "5G" 0 0]) DEFAULT_SEARCH_RADIUS) =
  fst (calculateSegmentCoverage integerNumeral
         (newCoverageCalculator integerNumeral [pointAt "5G" 0 0]) [origin]
         noFilters DEFAULT_SEARCH_RADIUS).
Proof.
  apply (all_options_same_as_none integerNumeral [pointAt "5G" 0 0] [origin]
           DEFAULT_SEARCH_RADIUS).
  repeat constructor; simpl; discriminate.
Defined.

(** [beyond_neighbour_cells_nothing_counted] for a point half a degree (about
    55 km) east of the route point and a radius of 100: the point is within
    the radius and is not counted. *)
Lemma beyond_neighbour_cells_nothing_counted_witness :
  fst (calculateSegmentCoverage tenthsNumeral
         (newCoverageCalculator tenthsNumeral [pointAt "5G" 0.5 0]) [origin]
         noFilters 100) =
  {| path := [origin];
     coverage := Num 0%R;
     coverageDetails := [("5G", Num 0); ("4G", Num 0); ("3G", Num 0); ("other", Num 0)] |}.
Proof.
  apply (beyond_neighbour_cells_nothing_counted tenthsNumeral tenthsNumeral_numerals
           [pointAt "5G" 0.5 0] [origin] noFilters 100).
  constructor; [constructor; [|constructor] | constructor]. right.
  cbn [pointAt coordinates fst snd origin lat lng].
  rewrite Rabs_pos_eq; lra.
Defined.

(** ** The score and the breakdown *)

Lemma Rsum_by_class l :
  Forall (fun pr => In (statusOf pr) knownClasses) l →
  Rsum (map specWeight (map statusOf l)) =
  (1 * INR (countStatus "5G" l) + 0.7 * INR (countStatus "4G" l) +
   0.4 * INR (countStatus "3G" l) + 0.1 * INR (countStatus "other" l))%R.
Proof.
  unfold countStatus. induction 1 as [|pr l Hpr Hl IH].
  - simpl. lra.
  - cbn [map Rsum List.filter]. rewrite IH.
    assert (Hcases : statusOf pr = "5G" ∨ statusOf pr = "4G" ∨
                     statusOf pr = "3G" ∨ statusOf pr = "other")
      by (simpl in Hpr; intuition).
    destruct Hcases as [E | [E | [E | E]]]; rewrite E;
      unfold specWeight; cbn [String.eqb Ascii.eqb Bool.eqb andb length];
      rewrite S_INR; lra.
Qed.

Section ScoreBreakdown.

Variable toStr : R → string.

(** X21: the score can be recomputed from the breakdown.  When every indexed
    point has one of the four statuses, the first call for a segment returns
    four counts a, b, c, d for 5G, 4G, 3G, other, and the score is 0 when they
    are all 0 and (1 a + 0.7 b + 0.4 c + 0.1 d) / (a + b + c + d) otherwise.
    Numbers are exact reals: the running sum and the division are not
    rounded, so a score computed in binary64 agrees with the formula up to
    rounding only. *)
Theorem score_from_breakdown pts segment filters searchRadius :
  Forall (fun p => In (status (properties p)) knownClasses) pts →
  ∃ a b c d : nat,
    let r := fst (calculateSegmentCoverage toStr (newCoverageCalculator toStr pts)
                    segment filters searchRadius) in
    coverageDetails r =
      [("5G", Num a); ("4G", Num b); ("3G", Num c); ("other", Num d)] ∧
    coverage r =
      if Nat.eqb (a + b + c + d) 0 then Num 0%R
      else Num ((1 * INR a + 0.7 * INR b + 0.4 * INR c + 0.1 * INR d) /
                INR (a + b + c + d))%R.
Proof.
  intros Hpts.
  set (passing := qualifyingPoints toStr (newCoverageCalculator toStr pts) segment
                                   filters searchRadius).
  assert (Hpass : Forall (fun pr => In (statusOf pr) knownClasses) passing).
  { apply Forall_forall. intros x Hx. apply list_elem_of_In in Hx.
    apply (qualifyingPoints_from_array toStr _ pts) in Hx as [Hx _]; [|done].
    rewrite Forall_forall in Hpts. apply Hpts. by apply list_elem_of_In. }
  assert (Hproto : Forall (fun pr => ¬ In (statusOf pr) Object_prototype_keys) passing).
  { eapply Forall_impl; [exact Hpass|]. intros pr Hk Hp. simpl in Hk, Hp.
    destruct Hk as [E | [E | [E | [E | []]]]]; rewrite <- E in Hp;
      intuition discriminate. }
  exists (countStatus "5G" passing), (countStatus "4G" passing),
         (countStatus "3G" passing), (countStatus "other" passing).
  cbv zeta. rewrite calculateSegmentCoverage_miss by apply lookup_empty. cbn [fst].
  split.
  - unfold computeSegment; cbv zeta; cbn [coverageDetails].
    rewrite tally_qualifying. fold passing.
    by rewrite (fold_countPoint_details _ initialTally 0 0 0 0 Hpass eq_refl).
  - rewrite (computeSegment_coverage toStr _ _ _ _ Hproto).
    fold passing. rewrite (countStatus_known passing Hpass).
    destruct passing as [|pr l] eqn:E; [done|].
    cbn [length Nat.eqb]. f_equal. rewrite <- E in *.
    assert (Hmean : meanWeight (map statusOf passing) =
              (Rsum (map specWeight (map statusOf passing)) /
               INR (length (map statusOf passing)))%R) by (by rewrite E).
    rewrite Hmean, length_map, (Rsum_by_class passing Hpass).
    by rewrite E.
Qed.

End ScoreBreakdown.

(** [score_from_breakdown] for one 5G point on a one-point route. *)
Lemma score_from_breakdown_witness :
  ∃ a b c d : nat,
    let r := fst (calculateSegmentCoverage integerNumeral
                    (newCoverageCalculator integerNumeral [pointAt "5G" 0 0])
                    [origin] noFilters DEFAULT_SEARCH_RADIUS) in
    coverageDetails r =
      [("5G", Num a); ("4G", Num b); ("3G", Num c); ("other", Num d)] ∧
    coverage r =
      if Nat.eqb (a + b + c + d) 0 then Num 0%R
      else Num ((1 * INR a + 0.7 * INR b + 0.4 * INR c + 0.1 * INR d) /
                INR (a + b + c + d))%R.
Proof.
  apply (score_from_breakdown integerNumeral [pointAt "5G" 0 0]).
  repeat constructor.
Defined.
